(** * galario [python/utils.py]: sweep, bilinear sampling, uv mapping, phase shifts

    A shallow embedding of the numerical helpers of [utils.py].

    Conventions of the embedding.
    - Python and numpy floats are modelled by the real numbers [R] of the
      Standard Library: every statement below is a statement of exact real
      arithmetic.  [dtype] arguments and [astype] casts are therefore the
      identity and are dropped.
    - Python integers are [Z]; [np.int(np.floor r)] is [Zfloor r] and
      [np.int(np.ceil r)] is [Zceil r].
    - 1-D numpy arrays are [list R], 2-D arrays are lists of rows.  Indexing
      follows Python: a negative index [i] with [-n <= i] denotes [n + i],
      anything else out of range raises [IndexError].
    - A call either returns a value or raises; this is the [result] monad. *)

From Stdlib Require Import Reals ZArith Lra Lia String.
From stdpp Require Import base option list.

Local Open Scope R_scope.

(** ** Exceptions and the result monad *)

Inductive exn : Type :=
  | AssertionError (msg : string)
  | IndexError
  | ValueError
  | UnboundLocalError
  | ZeroDivisionError.

Inductive result (A : Type) : Type :=
  | Ok (a : A)
  | Raise (e : exn).
Arguments Ok {A} a.
Arguments Raise {A} e.

#[global] Instance result_ret : MRet result := fun A a => Ok a.
#[global] Instance result_bind : MBind result := fun A B f m =>
  match m with
  | Ok a => f a
  | Raise e => Raise e
  end.

(** [for x in xs: s = body x s], stopping at the first exception. *)
Fixpoint for_each {A St : Type} (xs : list A) (body : A -> St -> result St)
    (s : St) : result St :=
  match xs with
  | [] => Ok s
  | x :: xs' => s' ← body x s; for_each xs' body s'
  end.

(** Python's [range(n)]: empty when [n <= 0]. *)
Definition range (n : Z) : list Z := seqZ 0 n.

(** ** Arrays with Python indexing *)

Definition norm_index (n : nat) (i : Z) : result nat :=
  if bool_decide (0 <= i < Z.of_nat n)%Z then Ok (Z.to_nat i)
  else if bool_decide (- Z.of_nat n <= i < 0)%Z then Ok (Z.to_nat (Z.of_nat n + i))
  else Raise IndexError.

Definition getitem {A : Type} (a : list A) (i : Z) : result A :=
  k ← norm_index (length a) i;
  match a !! k with
  | Some v => Ok v
  | None => Raise IndexError
  end.

Definition setitem {A : Type} (a : list A) (i : Z) (v : A) : result (list A) :=
  k ← norm_index (length a) i;
  Ok (<[k := v]> a).

(** [f[i, j]] on a 2-D array. *)
Definition getitem2 (f : list (list R)) (i j : Z) : result R :=
  row ← getitem f i;
  getitem row j.

(** [f[i, j] = v] on a 2-D array. *)
Definition setitem2 (f : list (list R)) (i j : Z) (v : R) : result (list (list R)) :=
  row ← getitem f i;
  row' ← setitem row j v;
  setitem f i row'.

(** [np.zeros(n)] and [np.zeros((nrow, ncol))]; negative dimensions raise. *)
Definition zeros (n : Z) : result (list R) :=
  if bool_decide (n < 0)%Z then Raise ValueError
  else Ok (replicate (Z.to_nat n) 0).

Definition zeros2 (nrow ncol : Z) : result (list (list R)) :=
  if bool_decide (nrow < 0 \/ ncol < 0)%Z then Raise ValueError
  else Ok (replicate (Z.to_nat nrow) (replicate (Z.to_nat ncol) 0)).

(** The shape of a (rectangular) 2-D array. *)
Definition shape2 (f : list (list R)) (nrow ncol : nat) : Prop :=
  length f = nrow /\ Forall (fun row => length row = ncol) f.

(** ** [int_bilin_MT] *)

(** One pass of the loop body of [int_bilin_MT]: the four reads of [f] and
    the four in-place updates of [fint[i]]. *)
Definition int_bilin_body (f : list (list R)) (x y : list R) (i : Z)
    (fint : list R) : result (list R) :=
  yi ← getitem y i;
  xi ← getitem x i;
  let t := yi - IZR (Zfloor yi) in
  let u := xi - IZR (Zfloor xi) in
  y0 ← getitem2 f (Zfloor yi) (Zfloor xi);
  y1 ← getitem2 f (Zfloor yi + 1) (Zfloor xi);
  y2 ← getitem2 f (Zfloor yi + 1) (Zfloor xi + 1);
  y3 ← getitem2 f (Zfloor yi) (Zfloor xi + 1);
  fint ← setitem fint i (t * u * (y0 - y1 + y2 - y3));
  a ← getitem fint i; fint ← setitem fint i (a + t * (y1 - y0));
  a ← getitem fint i; fint ← setitem fint i (a + u * (y3 - y0));
  a ← getitem fint i; setitem fint i (a + y0).

Definition int_bilin_MT (f : list (list R)) (x y : list R) : result (list R) :=
  fint ← zeros (Z.of_nat (length x));
  for_each (range (Z.of_nat (length x))) (int_bilin_body f x y) fint.

(** ** Decidable comparisons on reals *)

#[global] Instance Rle_decision (x y : R) : Decision (x <= y) := Rle_dec x y.
#[global] Instance Rlt_decision (x y : R) : Decision (x < y) := Rlt_dec x y.
#[global] Instance Req_decision : EqDecision R := Req_dec_T.

(** ** Module constants *)

Definition sec2rad : R := PI / 180 / 3600.

(** ** numpy helpers used by the module *)

(** [np.linspace(start, stop, num)] with the default [endpoint=True]:
    [arange(num) * step + start], the last sample overwritten by [stop]. *)
Definition linspace (start stop : R) (num : Z) : result (list R) :=
  if bool_decide (num < 0)%Z then Raise ValueError
  else
    let step := (stop - start) / IZR (num - 1) in
    Ok ((fun i : Z =>
           if bool_decide (1 < num /\ i = num - 1)%Z then stop
           else IZR i * step + start) <$> range num).

(** [np.meshgrid(xs, ys)] with the default ['xy'] indexing: both outputs
    have [len(ys)] rows and [len(xs)] columns. *)
Definition meshgrid (xs ys : list R) : list (list R) * list (list R) :=
  ((fun _ : R => xs) <$> ys, (fun y : R => (fun _ : R => y) <$> xs) <$> ys).

(** [np.searchsorted(xs, v)] (side ['left']) on a sorted array: the number
    of leading samples strictly below [v]. *)
Fixpoint searchsorted (xs : list R) (v : R) : nat :=
  match xs with
  | [] => O
  | x :: xs' => if bool_decide (x < v) then S (searchsorted xs' v) else O
  end.

(** [scipy.interpolate.interp1d(xs, ys, kind='linear', bounds_error=False,
    assume_sorted=True)], following [_call_linear]: [fill = Some c] is
    [fill_value=c], [fill = None] is [fill_value='extrapolate']. *)
Definition interp1d_eval (xs ys : list R) (fill : option R) (x_new : R) : R :=
  let idx := Nat.min (Nat.max (searchsorted xs x_new) 1) (length xs - 1) in
  let lo := (idx - 1)%nat in
  let hi := idx in
  let x_lo := nth lo xs 0 in
  let x_hi := nth hi xs 0 in
  let y_lo := nth lo ys 0 in
  let y_hi := nth hi ys 0 in
  let slope := (y_hi - y_lo) / (x_hi - x_lo) in
  let y_new := slope * (x_new - x_lo) + y_lo in
  match fill with
  | None => y_new
  | Some c =>
      if bool_decide (x_new < nth 0 xs 0) then c
      else if bool_decide (nth (length xs - 1) xs 0 < x_new) then c
      else y_new
  end.

Definition interp1d (xs ys : list R) (fill : option R) : result (R -> R) :=
  if bool_decide (length xs <> length ys) then Raise ValueError
  else if bool_decide (length xs < 2)%nat then Raise ValueError
  else Ok (interp1d_eval xs ys fill).

(** ** [radial_profile] *)

Definition radial_profile (Rmin delta_R : R) (nrad : Z) (mode : string)
    (gauss_width : R) : result (list R) :=
  gridrad ← linspace Rmin (Rmin + delta_R * IZR (nrad - 1)) nrad;
  if String.eqb mode "Gauss" then
    Ok ((fun g => exp (- (g / delta_R / gauss_width) ^ 2)) <$> (gridrad : list R))
  else if String.eqb mode "Cos-Gauss" then
    Ok ((fun g => cos (2 * PI * g / (50 * delta_R)) ^ 2
                  * exp (- (g / delta_R / 80) ^ 2)) <$> (gridrad : list R))
  else Raise UnboundLocalError.

(** ** [g_sweep_prototype] *)

(** The body of the inner loop: one pixel of the window. *)
Definition g_sweep_body (I : list R) (Rmin dR dxy inc_cos : R)
    (nrad rmax row_offset col_offset irow jcol : Z)
    (image : list (list R)) : result (list (list R)) :=
  let x := IZR (rmax - jcol) * dxy in
  let y := IZR (rmax - irow) * dxy in
  let rr := sqrt ((x / inc_cos) ^ 2 + y ^ 2) in
  let iR := Zfloor ((rr - Rmin) / dR) in
  if bool_decide (iR >= nrad - 1)%Z then
    setitem2 image (irow + row_offset) (jcol + col_offset) 0
  else
    a ← getitem I iR;
    b ← getitem I (iR + 1);
    setitem2 image (irow + row_offset) (jcol + col_offset)
      (a + (rr - IZR iR * dR - Rmin) * (b - a) / dR).

Definition g_sweep_prototype (I : list R) (Rmin dR : R) (nrow ncol : Z)
    (dxy inc : R) : result (list (list R)) :=
  if bool_decide (Rmin <= dxy) then
    image ← zeros2 nrow ncol;
    let nrad := Z.of_nat (length I) in
    let irow_center := (nrow ÷ 2)%Z in
    let icol_center := (ncol ÷ 2)%Z in
    let inc_cos := cos (inc / 180 * PI) in
    let rmax := Z.min (Zceil ((Rmin + IZR nrad * dR) / dxy)) irow_center in
    let row_offset := (irow_center - rmax)%Z in
    let col_offset := (icol_center - rmax)%Z in
    image ← for_each (range (rmax * 2)) (fun irow image =>
               for_each (range (rmax * 2))
                 (g_sweep_body I Rmin dR dxy inc_cos nrad rmax
                    row_offset col_offset irow) image) image;
    if bool_decide (Rmin <> 0) then
      a ← getitem I 0;
      b ← getitem I 1;
      setitem2 image irow_center icol_center (a + Rmin * (a - b) / dR)
    else Ok image
  else Raise (AssertionError "Rmin must be smaller or equal than dxy").

(** ** [sweep_ref] *)

(** [1./float(n)] on Python floats. *)
Definition float_recip (n : Z) : result R :=
  if bool_decide (n = 0)%Z then Raise ZeroDivisionError else Ok (1 / IZR n).

Definition sweep_ref (I : list R) (Rmin dR : R) (nrow ncol : Z)
    (dxy inc Dx Dy : R) : result (list (list R)) :=
  let inc := inc / 180 * PI in
  let inc_cos := cos inc in
  let nrad := Z.of_nat (length I) in
  gridrad ← linspace Rmin (Rmin + dR * IZR (nrad - 1)) nrad;
  cstep ← float_recip ncol;
  xl ← linspace 0.5 (- 0.5 + cstep) ncol;
  let x := (fun t => t * dxy * IZR ncol) <$> (xl : list R) in
  rstep ← float_recip nrow;
  yl ← linspace 0.5 (- 0.5 + rstep) nrow;
  let y := (fun t => t * dxy * IZR nrow) <$> (yl : list R) in
  let '(xxx, yyy) := meshgrid ((fun t => (t - Dx * dxy) / inc_cos) <$> x)
                              ((fun t => t - Dy * dxy) <$> y) in
  let x_meshgrid :=
    zip_with (zip_with (fun a b => sqrt (a ^ 2 + b ^ 2))) xxx yyy in
  f ← interp1d gridrad I (Some 0);
  let intensmap := fmap (M:=list) (fmap (M:=list) f) x_meshgrid in
  f_center ← interp1d gridrad I None;
  setitem2 intensmap (nrow ÷ 2)%Z (ncol ÷ 2)%Z (f_center 0).

(** ** Coordinate mappers [uv_idx] and [uv_idx_r2c] *)

Definition uv_idx (udat vdat : list R) (du half_size : R) : list R * list R :=
  ((fun u => half_size + u / du) <$> udat,
   (fun v => half_size + v / du) <$> vdat).

(** Boolean-mask indexing [a[mask]]. *)
Fixpoint mask_select (mask : list bool) (a : list R) : list R :=
  match mask, a with
  | m :: mask', v :: a' =>
      if m then v :: mask_select mask' a' else mask_select mask' a'
  | _, _ => []
  end.

(** Boolean-mask assignment [a[mask] = vals]. *)
Fixpoint mask_assign (mask : list bool) (a vals : list R) : list R :=
  match mask, a with
  | m :: mask', v :: a' =>
      if m then
        match vals with
        | w :: vals' => w :: mask_assign mask' a' vals'
        | [] => v :: mask_assign mask' a' []
        end
      else v :: mask_assign mask' a' vals
  | _, _ => a
  end.

Definition uv_idx_r2c (udat vdat : list R) (du half_size : R)
  : result (list R * list R) :=
  let indu := (fun u => Rabs u / du) <$> udat in
  let indv := (fun v => half_size + v / du) <$> vdat in
  let uneg := (fun u => bool_decide (u < 0)) <$> udat in
  if bool_decide (length uneg <> length vdat) then Raise IndexError
  else
    let flipped := (fun v => half_size - v / du) <$> mask_select uneg vdat in
    Ok (indu, mask_assign uneg indv flipped).

(** ** [pixel_coordinates] *)

(** [np.float(nx)] is [nx] as a float; [nx - 1] is computed on integers. *)
Definition pixel_coordinates (maxuv : R) (nx : Z) : result (list R) :=
  l ← linspace 0 (IZR (nx - 1)) nx;
  Ok ((fun t => (t - IZR nx / 2) * maxuv / IZR nx) <$> (l : list R)).

(** ** [create_reference_image] *)

(** [sizey] is [None] or an integer; [if sizey:] is false for [None] and
    for [0].  The exponent [-(xx-x0)**2./sigma_x - (yy-y0)**2./sigma_y]
    binds as [(-(xx-x0)^2)/sigma_x - ((yy-y0)^2)/sigma_y]. *)
Definition create_reference_image (size : Z) (x0 y0 sigma_x sigma_y : R)
    (reverse_xaxis correct_axes : bool) (sizey : option Z)
  : result (list (list R)) :=
  let inc_cos := cos (0 / 180 * PI) in
  let delta_x := 1 in
  lx ← linspace 0 (IZR (size - 1)) size;
  let x := (fun t => (t - IZR size / 2) * delta_x) <$> (lx : list R) in
  y ← match sizey with
      | Some sy =>
          if bool_decide (sy <> 0)%Z then
            ly ← linspace 0 (IZR (sy - 1)) sy;
            Ok ((fun t => (t - IZR sy / 2) * delta_x) <$> (ly : list R))
          else Ok x
      | None => Ok x
      end;
  let '(xx, yy) :=
    if reverse_xaxis then
      meshgrid (Ropp <$> x) ((fun t => t / inc_cos) <$> (y : list R))
    else if correct_axes then
      meshgrid (Ropp <$> x) ((fun t => - t / inc_cos) <$> (y : list R))
    else meshgrid x ((fun t => t / inc_cos) <$> (y : list R)) in
  Ok (fmap (M:=list) (fmap (M:=list) exp)
        (zip_with (zip_with (fun a b =>
             - (a - x0) ^ 2 / sigma_x - (b - y0) ^ 2 / sigma_y)) xx yy)).

(** ** Phase shifts *)

(** Complex numbers as (real, imaginary) pairs. *)
Record complex : Type := Cplx { re : R; im : R }.

Definition Cadd (a b : complex) : complex := Cplx (re a + re b) (im a + im b).
Definition Cmul (a b : complex) : complex :=
  Cplx (re a * re b - im a * im b) (re a * im b + im a * re b).
Definition Cofreal (x : R) : complex := Cplx x 0.
Definition Ci : complex := Cplx 0 1.

(** [np.fft.fftfreq(n)] with the default spacing [d = 1.0]. *)
Definition fftfreq (n : Z) : result (list R) :=
  if bool_decide (n = 0)%Z then Raise ZeroDivisionError
  else
    let val := 1 / (IZR n * 1) in
    let N := ((n - 1) `div` 2 + 1)%Z in
    Ok ((fun k : Z => IZR k * val) <$> (seqZ 0 N ++ seqZ (- (n `div` 2)) (n `div` 2))).

(** [np.fft.fftshift] on a 1-D array: a roll by [n // 2]. *)
Definition fftshift (a : list R) : list R :=
  let n := length a in
  let s := (n `div` 2)%nat in
  drop (n - s) a ++ take (n - s) a.

(** numpy broadcasting along one axis: operands of equal length combine
    element by element, an operand of length one is stretched over the
    other, anything else raises [ValueError]. *)
Definition broadcast_with {A B C : Type} (op : A -> B -> C)
    (a : list A) (b : list B) : result (list C) :=
  if bool_decide (length a = length b) then Ok (zip_with op a b)
  else
    match a, b with
    | [x], _ => Ok (op x <$> b)
    | _, [y] => Ok ((fun x => op x y) <$> a)
    | _, _ => Raise ValueError
    end.

(** Broadcasting of two 2-D operands with the same number of rows. *)
Fixpoint broadcast_rows {A B C : Type} (op : A -> B -> C)
    (a : list (list A)) (b : list (list B)) : result (list (list C)) :=
  match a, b with
  | ra :: a', rb :: b' =>
      r ← broadcast_with op ra rb;
      rest ← broadcast_rows op a' b';
      Ok (r :: rest)
  | _, _ => Ok []
  end.

(** [sec2rad/wle] is a division of Python floats: it raises for [wle = 0]. *)
Definition Fourier_shift_static (ft_centered : list (list complex))
    (x0 y0 wle maxuv : R) : result (list (list complex)) :=
  let nx := length ft_centered in
  if bool_decide (wle = 0) then Raise ZeroDivisionError
  else
    let sec2pixel := sec2rad / wle in
    let x0 := x0 * sec2pixel in
    let y0 := y0 * sec2pixel in
    freq ← fftfreq (Z.of_nat nx);
    let spatial_freq := (fun s => maxuv * s * 2 * PI) <$> fftshift freq in
    let '(uu, vv) := meshgrid spatial_freq spatial_freq in
    let uv_grid := zip_with (zip_with (fun a b => a * x0 + b * y0)) uu vv in
    broadcast_rows (fun z theta =>
        let cos_theta := cos theta in
        let sin_theta := sin theta in
        let re_v_shifted := re z * cos_theta - im z * sin_theta in
        let imag_v_shifted := im z * cos_theta + re z * sin_theta in
        Cadd (Cofreal re_v_shifted) (Cmul Ci (Cofreal imag_v_shifted)))
      ft_centered uv_grid.

Definition Fourier_shift_array (u v : list R) (fint : list complex)
    (x0 y0 : R) : result (list complex) :=
  let x0 := x0 * sec2rad in
  let y0 := y0 * sec2rad in
  let x0 := x0 * (2 * PI) in
  let y0 := y0 * (2 * PI) in
  theta ← broadcast_with (fun a b => a * x0 + b * y0) u v;
  broadcast_with (fun z t =>
      Cmul z (Cadd (Cofreal (cos t)) (Cmul Ci (Cofreal (sin t)))))
    fint theta.

(** ** Readings used in the statements *)

(** [f[i, j]] as a plain value: the element Python indexing selects, and
    [0] where that indexing raises. *)
Definition item2 (f : list (list R)) (i j : Z) : R :=
  match getitem2 f i j with
  | Ok v => v
  | Raise _ => 0
  end.

(** The pixel in row [r], column [c], counted from zero. *)
Definition pixel (f : list (list R)) (r c : nat) : option R :=
  row ← f !! r; row !! c.

(** The bilinear interpolant of section 4.3 of the specification, written
    from its words: corners [f00], [f10], [f11], [f01] and weights [t], [u]. *)
Definition bilinear (f : list (list R)) (x y : R) : R :=
  let t := y - IZR (Zfloor y) in
  let u := x - IZR (Zfloor x) in
  let f00 := item2 f (Zfloor y) (Zfloor x) in
  let f10 := item2 f (Zfloor y + 1) (Zfloor x) in
  let f11 := item2 f (Zfloor y + 1) (Zfloor x + 1) in
  let f01 := item2 f (Zfloor y) (Zfloor x + 1) in
  t * u * (f00 - f10 + f11 - f01) + t * (f10 - f00) + u * (f01 - f00) + f00.

(** A sample whose four neighbours can be indexed in an image of the given
    shape. *)
Definition in_extent (nrow ncol : nat) (x y : R) : Prop :=
  (- Z.of_nat ncol <= Zfloor x /\ Zfloor x + 1 < Z.of_nat ncol)%Z /\
  (- Z.of_nat nrow <= Zfloor y /\ Zfloor y + 1 < Z.of_nat nrow)%Z.

(** The deprojected radius of section 4.1 of the specification. *)
Definition deprojected_radius (x y inc_cos : R) : R :=
  sqrt ((x / inc_cos) ^ 2 + y ^ 2).

(** The value the loop body of [g_sweep_prototype] computes for the window
    pixel [(irow, jcol)], before it is stored. *)
Definition g_sweep_value (I : list R) (Rmin dR dxy inc_cos : R)
    (nrad rmax irow jcol : Z) : result R :=
  let x := IZR (rmax - jcol) * dxy in
  let y := IZR (rmax - irow) * dxy in
  let rr := sqrt ((x / inc_cos) ^ 2 + y ^ 2) in
  let iR := Zfloor ((rr - Rmin) / dR) in
  if bool_decide (iR >= nrad - 1)%Z then Ok 0
  else
    a ← getitem I iR;
    b ← getitem I (iR + 1);
    Ok (a + (rr - IZR iR * dR - Rmin) * (b - a) / dR).

(** The truncated linear interpolant of section 4.2 of the specification,
    written from its words: bin [iR = floor((r - Rmin)/dR)], value [0] when
    [iR >= n - 1], else the interpolant between [I[iR]] and [I[iR+1]]. *)
Definition profile_interp (I : list R) (Rmin dR r : R) : R :=
  let iR := Zfloor ((r - Rmin) / dR) in
  if bool_decide (iR >= Z.of_nat (length I) - 1)%Z then 0
  else nth (Z.to_nat iR) I 0
       + (r - IZR iR * dR - Rmin)
         * (nth (Z.to_nat (iR + 1)) I 0 - nth (Z.to_nat iR) I 0) / dR.

(** The central-pixel value [I[0] + Rmin*(I[0] - I[1])/dR]. *)
Definition center_value (I : list R) (Rmin dR : R) : R :=
  nth 0 I 0 + Rmin * (nth 0 I 0 - nth 1 I 0) / dR.

(** Half-width of the window of [g_sweep_prototype]. *)
Definition sweep_rmax (I : list R) (Rmin dR dxy : R) (nrow : Z) : Z :=
  Z.min (Zceil ((Rmin + IZR (Z.of_nat (length I)) * dR) / dxy)) (nrow ÷ 2).

(** The value of a computation that is known to return. *)
Definition value_or_zero (m : result R) : R :=
  match m with
  | Ok v => v
  | Raise _ => 0
  end.

(** A list is the radial grid [Rmin + i*dR], [i < n]. *)
Definition is_grid (g : list R) (Rmin dR : R) (n : nat) : Prop :=
  length g = n /\
  forall i : nat, (i < n)%nat -> g !! i = Some (Rmin + IZR (Z.of_nat i) * dR).

(** A computation that returns or raises [IndexError], nothing else. *)
Definition only_IndexError {A : Type} (m : result A) : Prop :=
  match m with
  | Ok _ => True
  | Raise e => e = IndexError
  end.

(** * Properties *)

(** ** The result monad and loops *)

Lemma bind_Ok {A B : Type} (f : A -> result B) (a : A) :
  (Ok a ≫= f) = f a.
Proof. reflexivity. Qed.

Lemma bind_Raise {A B : Type} (f : A -> result B) (e : exn) :
  (Raise e ≫= f) = Raise e.
Proof. reflexivity. Qed.

Lemma bind_Ok_inv {A B : Type} (f : A -> result B) (m : result A) (b : B) :
  (m ≫= f) = Ok b -> exists a, m = Ok a /\ f a = Ok b.
Proof. destruct m as [a|e]; [eauto | discriminate]. Qed.

(** Loop invariant rule for [for i in range(start, start+k)]. *)
Lemma for_each_seqZ_inv {St : Type} (Inv : Z -> St -> Prop)
    (body : Z -> St -> result St) (k : nat) :
  forall (m : Z) (s : St),
    Inv m s ->
    (forall i s, (m <= i < m + Z.of_nat k)%Z -> Inv i s ->
       exists s', body i s = Ok s' /\ Inv (i + 1)%Z s') ->
    exists s', for_each (seqZ m (Z.of_nat k)) body s = Ok s'
               /\ Inv (m + Z.of_nat k)%Z s'.
Proof.
  induction k as [|k IH]; intros m s Hinv Hstep.
  - exists s. split; [reflexivity|]. now replace (m + Z.of_nat 0)%Z with m by lia.
  - rewrite seqZ_cons by lia. cbn [for_each].
    destruct (Hstep m s) as (s1 & Hb & Hinv1); [lia|assumption|].
    rewrite Hb, bind_Ok.
    replace (Z.pred (Z.of_nat (S k))) with (Z.of_nat k) by lia.
    destruct (IH (Z.succ m) s1) as (s2 & Hrun & Hinv2).
    + now replace (Z.succ m) with (m + 1)%Z by lia.
    + intros i s' Hi. apply Hstep. lia.
    + exists s2. split; [assumption|].
      now replace (m + Z.of_nat (S k))%Z with (Z.succ m + Z.of_nat k)%Z by lia.
Qed.

Lemma for_each_range_inv {St : Type} (Inv : Z -> St -> Prop)
    (body : Z -> St -> result St) (n : Z) (s : St) :
  Inv 0%Z s ->
  (forall i s, (0 <= i < n)%Z -> Inv i s ->
     exists s', body i s = Ok s' /\ Inv (i + 1)%Z s') ->
  exists s', for_each (range n) body s = Ok s' /\ Inv (Z.max 0 n) s'.
Proof.
  intros H0 Hstep. unfold range.
  destruct (Z_lt_le_dec n 0) as [Hn|Hn].
  - rewrite seqZ_nil by lia. exists s. split; [reflexivity|].
    now replace (Z.max 0 n) with 0%Z by lia.
  - destruct (for_each_seqZ_inv Inv body (Z.to_nat n) 0%Z s H0) as (s' & Hr & Hi).
    + intros i s1 Hi. apply Hstep. lia.
    + rewrite Z2Nat.id in Hr, Hi by lia.
      exists s'. split; [assumption|].
      now replace (Z.max 0 n) with (0 + n)%Z by lia.
Qed.

(** ** Python indexing *)

Lemma norm_index_nonneg (n : nat) (i : Z) :
  (0 <= i < Z.of_nat n)%Z -> norm_index n i = Ok (Z.to_nat i).
Proof. intros H. unfold norm_index. now rewrite bool_decide_eq_true_2. Qed.

Lemma norm_index_neg (n : nat) (i : Z) :
  (- Z.of_nat n <= i < 0)%Z -> norm_index n i = Ok (Z.to_nat (Z.of_nat n + i)).
Proof.
  intros H. unfold norm_index.
  rewrite bool_decide_eq_false_2 by lia. now rewrite bool_decide_eq_true_2.
Qed.

Lemma norm_index_out (n : nat) (i : Z) :
  (i < - Z.of_nat n \/ Z.of_nat n <= i)%Z -> norm_index n i = Raise IndexError.
Proof.
  intros H. unfold norm_index.
  rewrite bool_decide_eq_false_2 by lia. now rewrite bool_decide_eq_false_2 by lia.
Qed.

Lemma norm_index_Ok (n : nat) (i : Z) (k : nat) :
  norm_index n i = Ok k ->
  (k < n)%nat /\
  ((0 <= i /\ k = Z.to_nat i) \/ (i < 0 /\ k = Z.to_nat (Z.of_nat n + i)))%Z.
Proof.
  unfold norm_index. repeat case_bool_decide; intros [= <-]; lia.
Qed.

Lemma getitem_nonneg {A : Type} (a : list A) (i : Z) (v : A) :
  (0 <= i)%Z -> a !! Z.to_nat i = Some v -> getitem a i = Ok v.
Proof.
  intros Hi Hv. unfold getitem.
  apply lookup_lt_Some in Hv as Hlt.
  rewrite norm_index_nonneg by lia. rewrite bind_Ok. now rewrite Hv.
Qed.

Lemma getitem_in_range {A : Type} (a : list A) (i : Z) :
  (- Z.of_nat (length a) <= i < Z.of_nat (length a))%Z ->
  exists v, getitem a i = Ok v.
Proof.
  intros Hi. unfold getitem.
  destruct (Z_lt_le_dec i 0).
  - rewrite norm_index_neg by lia. rewrite bind_Ok.
    destruct (lookup_lt_is_Some_2 a (Z.to_nat (Z.of_nat (length a) + i))) as [v Hv];
      [lia|]. rewrite Hv. eauto.
  - rewrite norm_index_nonneg by lia. rewrite bind_Ok.
    destruct (lookup_lt_is_Some_2 a (Z.to_nat i)) as [v Hv]; [lia|].
    rewrite Hv. eauto.
Qed.

Lemma getitem_Ok_nonneg {A : Type} (a : list A) (i : Z) (v : A) :
  (0 <= i)%Z -> getitem a i = Ok v -> a !! Z.to_nat i = Some v.
Proof.
  intros Hi. unfold getitem. intros H.
  apply bind_Ok_inv in H as (k & Hk & H).
  apply norm_index_Ok in Hk as (_ & [[_ ->]|[? _]]); [|lia].
  destruct (a !! Z.to_nat i); congruence.
Qed.

Lemma setitem_nonneg {A : Type} (a : list A) (i : Z) (v : A) :
  (0 <= i < Z.of_nat (length a))%Z -> setitem a i v = Ok (<[Z.to_nat i := v]> a).
Proof. intros Hi. unfold setitem. now rewrite norm_index_nonneg. Qed.

Lemma setitem2_nonneg (f : list (list R)) (i j : Z) (row : list R) (v : R) :
  (0 <= i)%Z -> f !! Z.to_nat i = Some row -> (0 <= j < Z.of_nat (length row))%Z ->
  setitem2 f i j v = Ok (<[Z.to_nat i := <[Z.to_nat j := v]> row]> f).
Proof.
  intros Hi Hrow Hj. unfold setitem2.
  rewrite (getitem_nonneg f i row Hi Hrow), bind_Ok.
  rewrite setitem_nonneg by assumption. rewrite bind_Ok.
  apply lookup_lt_Some in Hrow. now rewrite setitem_nonneg by lia.
Qed.

(** ** Bilinear sampling *)

Lemma getitem2_in_range (f : list (list R)) (nrow ncol : nat) (i j : Z) :
  shape2 f nrow ncol ->
  (- Z.of_nat nrow <= i < Z.of_nat nrow)%Z ->
  (- Z.of_nat ncol <= j < Z.of_nat ncol)%Z ->
  getitem2 f i j = Ok (item2 f i j).
Proof.
  intros [Hlen Hrows] Hi Hj.
  assert (exists v, getitem2 f i j = Ok v) as [v Hv].
  { unfold getitem2.
    destruct (getitem_in_range f i) as [row Hrow]; [lia|].
    rewrite Hrow, bind_Ok.
    assert (length row = ncol) as Hr.
    { unfold getitem in Hrow. apply bind_Ok_inv in Hrow as (k & _ & Hk).
      destruct (f !! k) as [row'|] eqn:E; [|discriminate].
      injection Hk as ->. rewrite Forall_lookup in Hrows. eauto. }
    apply getitem_in_range. lia. }
  unfold item2. now rewrite Hv.
Qed.

Lemma getitem_setitem {A : Type} (a : list A) (i : Z) (v : A) (a' : list A) :
  setitem a i v = Ok a' -> getitem a' i = Ok v /\ length a' = length a.
Proof.
  unfold setitem, getitem. intros H.
  apply bind_Ok_inv in H as (k & Hk & [= <-]).
  rewrite length_insert, Hk, bind_Ok.
  apply norm_index_Ok in Hk as [Hk _].
  now rewrite list_lookup_insert_eq.
Qed.

(** Overwriting [a[i]] after reading it back: the [+=] of the source. *)
Lemma setitem_getitem_insert (a : list R) (i : Z) (v : R) :
  (0 <= i < Z.of_nat (length a))%Z ->
  setitem a i v = Ok (<[Z.to_nat i := v]> a) /\
  getitem (<[Z.to_nat i := v]> a) i = Ok v.
Proof.
  intros Hi. split; [now apply setitem_nonneg|].
  apply getitem_nonneg; [lia|]. apply list_lookup_insert_eq. lia.
Qed.

Lemma int_bilin_body_Ok (f : list (list R)) (nrow ncol : nat)
    (x y fint : list R) (i : Z) (xi yi : R) :
  shape2 f nrow ncol ->
  (0 <= i < Z.of_nat (length fint))%Z ->
  x !! Z.to_nat i = Some xi -> y !! Z.to_nat i = Some yi ->
  in_extent nrow ncol xi yi ->
  int_bilin_body f x y i fint = Ok (<[Z.to_nat i := bilinear f xi yi]> fint).
Proof.
  intros Hf Hi Hx Hy [[Hx1 Hx2] [Hy1 Hy2]]. unfold int_bilin_body.
  rewrite (getitem_nonneg y i yi) by (lia || assumption). rewrite bind_Ok.
  rewrite (getitem_nonneg x i xi) by (lia || assumption). rewrite bind_Ok.
  rewrite (getitem2_in_range f nrow ncol (Zfloor yi) (Zfloor xi)) by (assumption || lia).
  rewrite bind_Ok.
  rewrite (getitem2_in_range f nrow ncol (Zfloor yi + 1) (Zfloor xi)) by (assumption || lia).
  rewrite bind_Ok.
  rewrite (getitem2_in_range f nrow ncol (Zfloor yi + 1) (Zfloor xi + 1)) by (assumption || lia).
  rewrite bind_Ok.
  rewrite (getitem2_in_range f nrow ncol (Zfloor yi) (Zfloor xi + 1)) by (assumption || lia).
  rewrite bind_Ok.
  set (y0 := item2 f (Zfloor yi) (Zfloor xi)).
  set (y1 := item2 f (Zfloor yi + 1) (Zfloor xi)).
  set (y2 := item2 f (Zfloor yi + 1) (Zfloor xi + 1)).
  set (y3 := item2 f (Zfloor yi) (Zfloor xi + 1)).
  set (t := yi - IZR (Zfloor yi)). set (u := xi - IZR (Zfloor xi)).
  destruct (setitem_getitem_insert fint i (t * u * (y0 - y1 + y2 - y3)) Hi) as [-> Hg1].
  rewrite bind_Ok, Hg1, bind_Ok.
  match goal with |- context [setitem ?a i ?v] =>
    destruct (setitem_getitem_insert a i v) as [-> Hg2];
      [rewrite length_insert; lia|]
  end.
  rewrite bind_Ok, Hg2, bind_Ok.
  match goal with |- context [setitem ?a i ?v] =>
    destruct (setitem_getitem_insert a i v) as [-> Hg3];
      [rewrite !length_insert; lia|]
  end.
  rewrite bind_Ok, Hg3, bind_Ok.
  rewrite setitem_nonneg by (rewrite !length_insert; lia).
  rewrite !list_insert_insert_eq. reflexivity.
Qed.

Lemma int_bilin_MT_run (f : list (list R)) (nrow ncol : nat) (x y : list R) :
  shape2 f nrow ncol ->
  length x = length y ->
  (forall i xi yi, x !! i = Some xi -> y !! i = Some yi ->
     in_extent nrow ncol xi yi) ->
  exists fint,
    int_bilin_MT f x y = Ok fint /\
    length fint = length x /\
    forall i xi yi, x !! i = Some xi -> y !! i = Some yi ->
      fint !! i = Some (bilinear f xi yi).
Proof.
  intros Hf Hlen Hext. unfold int_bilin_MT, zeros.
  rewrite bool_decide_eq_false_2 by lia. rewrite bind_Ok, Nat2Z.id.
  destruct (for_each_range_inv
    (fun k (fint : list R) =>
       length fint = length x /\
       forall i xi yi, (Z.of_nat i < k)%Z ->
         x !! i = Some xi -> y !! i = Some yi ->
         fint !! i = Some (bilinear f xi yi))
    (int_bilin_body f x y) (Z.of_nat (length x)) (replicate (length x) 0))
    as (fint & Hrun & Hl & Hv).
  - split; [apply length_replicate | intros; lia].
  - intros i fint Hi [Hl Hv].
    destruct (lookup_lt_is_Some_2 x (Z.to_nat i)) as [xi Hxi]; [lia|].
    destruct (lookup_lt_is_Some_2 y (Z.to_nat i)) as [yi Hyi]; [lia|].
    eexists. split.
    + eapply int_bilin_body_Ok; eauto. lia.
    + split; [now rewrite length_insert|].
      intros k xk yk Hk Hxk Hyk.
      destruct (decide (k = Z.to_nat i)) as [->|Hne].
      * rewrite list_lookup_insert_eq by lia. congruence.
      * rewrite list_lookup_insert_ne by congruence. apply (Hv k); auto. lia.
  - exists fint. split; [assumption|]. split; [assumption|].
    intros i xi yi Hxi Hyi. apply (Hv i); auto.
    apply lookup_lt_Some in Hxi. lia.
Qed.

(** C6. For an image [f] of shape [nrow x ncol] and coordinate lists [x],
    [y] of equal length whose samples all have [floor x + 1] and
    [floor y + 1] inside the image, [int_bilin_MT] returns one value per
    coordinate pair, in input order, and the value for the pair [(x_i, y_i)]
    is [t*u*(f00-f10+f11-f01) + t*(f10-f00) + u*(f01-f00) + f00]. *)
Theorem int_bilin_MT_bilinear (f : list (list R)) (nrow ncol : nat)
    (x y : list R) :
  shape2 f nrow ncol ->
  length x = length y ->
  (forall i xi yi, x !! i = Some xi -> y !! i = Some yi ->
     in_extent nrow ncol xi yi) ->
  exists fint,
    int_bilin_MT f x y = Ok fint /\
    length fint = length x /\
    forall i xi yi, x !! i = Some xi -> y !! i = Some yi ->
      fint !! i =
        Some (let t := yi - IZR (Zfloor yi) in
              let u := xi - IZR (Zfloor xi) in
              let f00 := item2 f (Zfloor yi) (Zfloor xi) in
              let f10 := item2 f (Zfloor yi + 1) (Zfloor xi) in
              let f11 := item2 f (Zfloor yi + 1) (Zfloor xi + 1) in
              let f01 := item2 f (Zfloor yi) (Zfloor xi + 1) in
              t * u * (f00 - f10 + f11 - f01) + t * (f10 - f00)
              + u * (f01 - f00) + f00).
Proof. exact (int_bilin_MT_run f nrow ncol x y). Qed.

Lemma item2_pixel (f : list (list R)) (i j : Z) (v : R) :
  (0 <= i)%Z -> (0 <= j)%Z ->
  pixel f (Z.to_nat i) (Z.to_nat j) = Some v -> item2 f i j = v.
Proof.
  intros Hi Hj. unfold pixel, item2, getitem2. intros H.
  destruct (f !! Z.to_nat i) as [row|] eqn:Hrow; [|discriminate].
  cbn in H.
  rewrite (getitem_nonneg f i row Hi Hrow), bind_Ok.
  now rewrite (getitem_nonneg row j v Hj H).
Qed.

Lemma pixel_is_Some (f : list (list R)) (nrow ncol r c : nat) :
  shape2 f nrow ncol -> (r < nrow)%nat -> (c < ncol)%nat ->
  is_Some (pixel f r c).
Proof.
  intros [Hl Hrows] Hr Hc. unfold pixel.
  destruct (lookup_lt_is_Some_2 f r) as [row Hrow]; [lia|].
  rewrite Hrow. cbn. apply lookup_lt_is_Some_2.
  rewrite Forall_lookup in Hrows. rewrite (Hrows _ _ Hrow). lia.
Qed.

Lemma bilinear_integer (f : list (list R)) (a b : Z) :
  bilinear f (IZR a) (IZR b) = item2 f b a.
Proof. unfold bilinear. rewrite !ZfloorZ. ring. Qed.

(** C7. Where a sample has exact non-negative integer coordinates
    [(a, b)] with [a + 1] and [b + 1] still inside the image, the value
    [int_bilin_MT] returns for it is exactly the pixel [f[b, a]]. *)
Theorem int_bilin_MT_integer (f : list (list R)) (nrow ncol : nat)
    (x y : list R) (i : nat) (a b : Z) :
  shape2 f nrow ncol ->
  length x = length y ->
  (forall k xk yk, x !! k = Some xk -> y !! k = Some yk ->
     in_extent nrow ncol xk yk) ->
  x !! i = Some (IZR a) -> y !! i = Some (IZR b) ->
  (0 <= a /\ a + 1 < Z.of_nat ncol)%Z ->
  (0 <= b /\ b + 1 < Z.of_nat nrow)%Z ->
  exists fint v,
    int_bilin_MT f x y = Ok fint /\
    pixel f (Z.to_nat b) (Z.to_nat a) = Some v /\
    fint !! i = Some v.
Proof.
  intros Hf Hlen Hext Hx Hy Ha Hb.
  destruct (int_bilin_MT_run f nrow ncol x y Hf Hlen Hext) as (fint & Hrun & _ & Hv).
  destruct (pixel_is_Some f nrow ncol (Z.to_nat b) (Z.to_nat a) Hf) as [v Hpix];
    [lia|lia|].
  exists fint, v. split; [assumption|]. split; [assumption|].
  rewrite (Hv i _ _ Hx Hy), bilinear_integer.
  f_equal. apply item2_pixel; [lia|lia|assumption].
Qed.

(** A 2x2 image sampled once at its top-left corner. *)
Lemma shape2_example : shape2 [[1; 2]; [3; 4]] 2 2.
Proof. split; [reflexivity|]. repeat constructor. Qed.

Lemma in_extent_example :
  forall (i : nat) (xi yi : R),
    [IZR 0] !! i = Some xi -> [IZR 0] !! i = Some yi -> in_extent 2 2 xi yi.
Proof.
  intros [|i] xi yi Hx Hy; [|discriminate].
  injection Hx as <-. injection Hy as <-.
  unfold in_extent. rewrite ZfloorZ. cbn. lia.
Qed.

(** A 2x2 image sampled at two points strictly inside its first cell. *)
Lemma shape2_sample_image : shape2 [[1; 2]; [3; 7]] 2 2.
Proof. split; [reflexivity|]. repeat constructor. Qed.

Lemma Zfloor_unit (x : R) : 0 <= x < 1 -> Zfloor x = 0%Z.
Proof. intros H. apply Zfloor_eq. cbn. lra. Qed.

Lemma in_extent_sample_points :
  forall (i : nat) (xi yi : R),
    [1 / 2; 3 / 4] !! i = Some xi -> [1 / 4; 1 / 2] !! i = Some yi ->
    in_extent 2 2 xi yi.
Proof.
  intros [|[|i]] xi yi Hx Hy; try discriminate;
    injection Hx as <-; injection Hy as <-; unfold in_extent;
    rewrite !Zfloor_unit by lra; cbn; lia.
Qed.

Lemma int_bilin_MT_bilinear_witness :
  int_bilin_MT [[1; 2]; [3; 7]] [1 / 2; 3 / 4] [1 / 4; 1 / 2]
  = Ok [19 / 8; 31 / 8].
Proof.
  destruct (int_bilin_MT_bilinear [[1; 2]; [3; 7]] 2 2 [1 / 2; 3 / 4] [1 / 4; 1 / 2]
              shape2_sample_image eq_refl in_extent_sample_points)
    as (fint & Hrun & Hlen & Hv).
  rewrite Hrun. f_equal.
  pose proof (Hv 0%nat _ _ eq_refl eq_refl) as H0.
  pose proof (Hv 1%nat _ _ eq_refl eq_refl) as H1.
  cbv zeta in H0, H1. rewrite !Zfloor_unit in H0, H1 by lra.
  rewrite !(item2_pixel [[1; 2]; [3; 7]] 0 0 1) in H0, H1 by (try lia; reflexivity).
  rewrite !(item2_pixel [[1; 2]; [3; 7]] (0 + 1) 0 3) in H0, H1
    by (try lia; reflexivity).
  rewrite !(item2_pixel [[1; 2]; [3; 7]] (0 + 1) (0 + 1) 7) in H0, H1
    by (try lia; reflexivity).
  rewrite !(item2_pixel [[1; 2]; [3; 7]] 0 (0 + 1) 2) in H0, H1
    by (try lia; reflexivity).
  destruct fint as [|a [|b [|c fint]]]; try discriminate.
  cbn in H0, H1. injection H0 as ->. injection H1 as ->.
  f_equal; [|f_equal]; cbn; field.
Defined.

Lemma int_bilin_MT_integer_witness :
  exists fint,
    int_bilin_MT [[1; 2]; [3; 4]] [IZR 0] [IZR 0] = Ok fint /\
    fint !! 0%nat = Some 1.
Proof.
  destruct (int_bilin_MT_integer [[1; 2]; [3; 4]] 2 2 [IZR 0] [IZR 0] 0 0 0
              shape2_example eq_refl in_extent_example eq_refl eq_refl
              ltac:(cbn; lia) ltac:(cbn; lia)) as (fint & v & Hrun & Hpix & Hv).
  exists fint. split; [assumption|].
  cbn in Hpix. injection Hpix as <-. assumption.
Defined.

(** ** Coordinate mapping *)

Lemma mask_assign_length (mask : list bool) :
  forall a vals : list R, length (mask_assign mask a vals) = length a.
Proof.
  induction mask as [|m mask IH]; intros [|v a] vals; cbn; try reflexivity.
  destruct m; [destruct vals|]; cbn; now rewrite IH.
Qed.

Lemma mask_assign_lookup (p : R -> bool) (g h : R -> R) (u : list R) :
  forall (v : list R) (i : nat) (ui vi : R),
    u !! i = Some ui -> v !! i = Some vi ->
    mask_assign (p <$> u) (g <$> v) (h <$> mask_select (p <$> u) v) !! i
    = Some (if p ui then h vi else g vi).
Proof.
  induction u as [|u0 u IH]; intros v i ui vi Hu Hv.
  - rewrite lookup_nil in Hu. discriminate.
  - destruct v as [|v0 v]; [rewrite lookup_nil in Hv; discriminate|].
    destruct i as [|i].
    + cbn in Hu, Hv. injection Hu as ->. injection Hv as ->.
      cbn. now destruct (p ui).
    + cbn in Hu, Hv. cbn. destruct (p u0); cbn; now apply IH.
Qed.

Lemma uv_idx_r2c_run (udat vdat : list R) (du half_size : R) :
  length udat = length vdat ->
  exists indu indv,
    uv_idx_r2c udat vdat du half_size = Ok (indu, indv) /\
    length indu = length udat /\ length indv = length udat /\
    forall i u v, udat !! i = Some u -> vdat !! i = Some v ->
      indu !! i = Some (Rabs u / du) /\
      indv !! i = Some (if bool_decide (u < 0) then half_size - v / du
                        else half_size + v / du).
Proof.
  intros Hlen. unfold uv_idx_r2c.
  rewrite bool_decide_eq_false_2 by (rewrite length_fmap; intros H; apply H, Hlen).
  eexists _, _. split; [reflexivity|].
  split; [apply length_fmap|].
  split; [rewrite mask_assign_length, length_fmap; congruence|].
  intros i u v Hu Hv. split.
  - now rewrite list_lookup_fmap, Hu.
  - apply (mask_assign_lookup (fun u => bool_decide (u < 0))
             (fun v => half_size + v / du) (fun v => half_size - v / du));
      assumption.
Qed.

(** C5. [uv_idx_r2c] sends [(u, v)] and [(-u, -v)] to the same
    [pixel_u = |u|/du]; its [pixel_v] is [half_size + v/du] when [u >= 0]
    and [half_size - v/du] when [u < 0], so for [u <> 0] the two conjugate
    samples also get the same [pixel_v]. *)
Theorem uv_idx_r2c_hermitian_fold (udat vdat : list R) (du half_size : R) :
  length udat = length vdat ->
  exists indu indv indu' indv',
    uv_idx_r2c udat vdat du half_size = Ok (indu, indv) /\
    uv_idx_r2c (Ropp <$> udat) (Ropp <$> vdat) du half_size = Ok (indu', indv') /\
    forall i u v, udat !! i = Some u -> vdat !! i = Some v ->
      indu !! i = Some (Rabs u / du) /\
      indu' !! i = Some (Rabs u / du) /\
      (0 <= u -> indv !! i = Some (half_size + v / du)) /\
      (u < 0 -> indv !! i = Some (half_size - v / du)) /\
      (u <> 0 -> indv' !! i = indv !! i).
Proof.
  intros Hlen.
  destruct (uv_idx_r2c_run udat vdat du half_size Hlen)
    as (indu & indv & Hrun & _ & _ & Hv).
  destruct (uv_idx_r2c_run (Ropp <$> udat) (Ropp <$> vdat) du half_size)
    as (indu' & indv' & Hrun' & _ & _ & Hv'); [now rewrite !length_fmap|].
  exists indu, indv, indu', indv'. split; [assumption|]. split; [assumption|].
  intros i u v Hu Hvi.
  destruct (Hv i u v Hu Hvi) as [Hiu Hiv].
  destruct (Hv' i (- u) (- v)) as [Hiu' Hiv'];
    [now rewrite list_lookup_fmap, Hu | now rewrite list_lookup_fmap, Hvi |].
  rewrite Rabs_Ropp in Hiu'.
  repeat split; try assumption.
  - intros Hu0. rewrite Hiv. now rewrite bool_decide_eq_false_2 by lra.
  - intros Hu0. rewrite Hiv. now rewrite bool_decide_eq_true_2 by lra.
  - intros Hne. rewrite Hiv, Hiv'. f_equal.
    destruct (Rlt_dec u 0).
    + rewrite (bool_decide_eq_true_2 (u < 0)) by assumption.
      rewrite bool_decide_eq_false_2 by lra. unfold Rdiv. ring.
    + rewrite (bool_decide_eq_false_2 (u < 0)) by assumption.
      rewrite bool_decide_eq_true_2 by lra. unfold Rdiv. ring.
Qed.

Lemma uv_idx_r2c_hermitian_fold_witness :
  exists indu indv indu' indv',
    uv_idx_r2c [1] [2] 1 0 = Ok (indu, indv) /\
    uv_idx_r2c (Ropp <$> [1]) (Ropp <$> [2]) 1 0 = Ok (indu', indv') /\
    indu !! 0%nat = indu' !! 0%nat /\ indv !! 0%nat = indv' !! 0%nat.
Proof.
  destruct (uv_idx_r2c_hermitian_fold [1] [2] 1 0 eq_refl)
    as (indu & indv & indu' & indv' & H1 & H2 & H).
  exists indu, indv, indu', indv'. split; [assumption|]. split; [assumption|].
  destruct (H 0%nat 1 2 eq_refl eq_refl) as (Ha & Hb & _ & _ & Hc).
  split; [congruence|]. symmetry. apply Hc. lra.
Defined.

(** ** Phase shifts *)

Lemma cos2_sin2 (t : R) : cos t * cos t + sin t * sin t = 1.
Proof. generalize (sin2_cos2 t). unfold Rsqr. lra. Qed.

(** Rotating by [theta] and then by [- theta] is the identity. *)
Lemma Cmul_phase_inv (z : complex) (t t' : R) :
  t' = - t ->
  Cmul (Cmul z (Cadd (Cofreal (cos t)) (Cmul Ci (Cofreal (sin t)))))
       (Cadd (Cofreal (cos t')) (Cmul Ci (Cofreal (sin t')))) = z.
Proof.
  intros ->. destruct z as [a b]. unfold Cmul, Cadd, Cofreal, Ci. cbn.
  rewrite cos_neg, sin_neg. f_equal.
  - transitivity (a * (cos t * cos t + sin t * sin t)); [ring|].
    rewrite cos2_sin2. ring.
  - transitivity (b * (cos t * cos t + sin t * sin t)); [ring|].
    rewrite cos2_sin2. ring.
Qed.

Lemma static_phase_inv (z : complex) (t t' : R) :
  t' = - t ->
  (let z1 := Cadd (Cofreal (re z * cos t - im z * sin t))
                  (Cmul Ci (Cofreal (im z * cos t + re z * sin t))) in
   Cadd (Cofreal (re z1 * cos t' - im z1 * sin t'))
        (Cmul Ci (Cofreal (im z1 * cos t' + re z1 * sin t')))) = z.
Proof.
  intros ->. destruct z as [a b]. unfold Cmul, Cadd, Cofreal, Ci. cbn.
  rewrite cos_neg, sin_neg. f_equal.
  - transitivity (a * (cos t * cos t + sin t * sin t)); [ring|].
    rewrite cos2_sin2. ring.
  - transitivity (b * (cos t * cos t + sin t * sin t)); [ring|].
    rewrite cos2_sin2. ring.
Qed.

Lemma array_roundtrip_list (X Y X' Y' : R) :
  X' = - X -> Y' = - Y ->
  forall (fint : list complex) (u v : list R),
    length u = length v -> length fint = length u ->
    zip_with (fun z t => Cmul z (Cadd (Cofreal (cos t)) (Cmul Ci (Cofreal (sin t)))))
      (zip_with (fun z t => Cmul z (Cadd (Cofreal (cos t)) (Cmul Ci (Cofreal (sin t)))))
         fint (zip_with (fun a b => a * X + b * Y) u v))
      (zip_with (fun a b => a * X' + b * Y') u v) = fint.
Proof.
  intros -> ->.
  induction fint as [|z fint IH]; intros [|a u] [|b v] Hl1 Hl2; try discriminate.
  - reflexivity.
  - cbn. f_equal.
    + apply Cmul_phase_inv. ring.
    + apply IH; cbn in *; lia.
Qed.

Lemma broadcast_with_same {A B C : Type} (op : A -> B -> C)
    (a : list A) (b : list B) :
  length a = length b -> broadcast_with op a b = Ok (zip_with op a b).
Proof.
  intros H. unfold broadcast_with. now rewrite bool_decide_eq_true_2.
Qed.

Lemma broadcast_rows_same {A B C : Type} (op : A -> B -> C) :
  forall (a : list (list A)) (b : list (list B)),
    (forall i ra rb, a !! i = Some ra -> b !! i = Some rb ->
       length ra = length rb) ->
    broadcast_rows op a b = Ok (zip_with (zip_with op) a b).
Proof.
  induction a as [|ra a IH]; intros [|rb b] H; try reflexivity.
  cbn [broadcast_rows zip_with].
  rewrite broadcast_with_same by (apply (H O); reflexivity).
  rewrite bind_Ok, IH, bind_Ok; [reflexivity|].
  intros i ra' rb' Ha Hb. apply (H (S i)); assumption.
Qed.

(** With arrays of one length nothing is broadcast. *)
Lemma Fourier_shift_array_same (u v : list R) (fint : list complex)
    (x0 y0 : R) :
  length u = length v -> length fint = length u ->
  Fourier_shift_array u v fint x0 y0
  = Ok (zip_with (fun z t =>
            Cmul z (Cadd (Cofreal (cos t)) (Cmul Ci (Cofreal (sin t)))))
          fint
          (zip_with (fun a b => a * (x0 * sec2rad * (2 * PI))
                                + b * (y0 * sec2rad * (2 * PI))) u v)).
Proof.
  intros Hl1 Hl2. unfold Fourier_shift_array. cbv zeta.
  rewrite broadcast_with_same by assumption. rewrite bind_Ok.
  apply broadcast_with_same. rewrite length_zip_with. lia.
Qed.

Lemma Fourier_shift_array_roundtrip (u v : list R) (fint : list complex)
    (x0 y0 : R) :
  length u = length v -> length fint = length u ->
  exists shifted,
    Fourier_shift_array u v fint x0 y0 = Ok shifted /\
    Fourier_shift_array u v shifted (- x0) (- y0) = Ok fint.
Proof.
  intros Hl1 Hl2. rewrite (Fourier_shift_array_same u v fint x0 y0 Hl1 Hl2).
  eexists. split; [reflexivity|].
  rewrite Fourier_shift_array_same;
    [|assumption|rewrite !length_zip_with; lia].
  f_equal. apply array_roundtrip_list; try assumption; ring.
Qed.

Lemma static_roundtrip_row (X Y X' Y' : R) :
  X' = - X -> Y' = - Y ->
  forall (row : list complex) (us vs : list R),
    (length row <= length us)%nat -> (length row <= length vs)%nat ->
    zip_with (fun z theta =>
        let cos_theta := cos theta in
        let sin_theta := sin theta in
        let re_v_shifted := re z * cos_theta - im z * sin_theta in
        let imag_v_shifted := im z * cos_theta + re z * sin_theta in
        Cadd (Cofreal re_v_shifted) (Cmul Ci (Cofreal imag_v_shifted)))
      (zip_with (fun z theta =>
          let cos_theta := cos theta in
          let sin_theta := sin theta in
          let re_v_shifted := re z * cos_theta - im z * sin_theta in
          let imag_v_shifted := im z * cos_theta + re z * sin_theta in
          Cadd (Cofreal re_v_shifted) (Cmul Ci (Cofreal imag_v_shifted)))
        row (zip_with (fun a b => a * X + b * Y) us vs))
      (zip_with (fun a b => a * X' + b * Y') us vs) = row.
Proof.
  intros -> ->.
  induction row as [|z row IH]; intros us vs H1 H2; [reflexivity|].
  destruct us as [|a us]; [cbn in H1; lia|].
  destruct vs as [|b vs]; [cbn in H2; lia|].
  cbn in H1, H2. cbn [zip_with]. f_equal.
  - apply (static_phase_inv z (a * X + b * Y)). ring.
  - apply IH; lia.
Qed.

Lemma static_roundtrip_grid (X Y X' Y' : R) (n : nat) :
  X' = - X -> Y' = - Y ->
  forall (ft : list (list complex)) (uu vv : list (list R)),
    Forall (fun row => length row = n) ft ->
    Forall (fun row => length row = n) uu ->
    Forall (fun row => length row = n) vv ->
    (length ft <= length uu)%nat -> (length ft <= length vv)%nat ->
    zip_with (zip_with (fun z theta =>
        let cos_theta := cos theta in
        let sin_theta := sin theta in
        let re_v_shifted := re z * cos_theta - im z * sin_theta in
        let imag_v_shifted := im z * cos_theta + re z * sin_theta in
        Cadd (Cofreal re_v_shifted) (Cmul Ci (Cofreal imag_v_shifted))))
      (zip_with (zip_with (fun z theta =>
          let cos_theta := cos theta in
          let sin_theta := sin theta in
          let re_v_shifted := re z * cos_theta - im z * sin_theta in
          let imag_v_shifted := im z * cos_theta + re z * sin_theta in
          Cadd (Cofreal re_v_shifted) (Cmul Ci (Cofreal imag_v_shifted))))
        ft (zip_with (zip_with (fun a b => a * X + b * Y)) uu vv))
      (zip_with (zip_with (fun a b => a * X' + b * Y')) uu vv) = ft.
Proof.
  intros HX HY.
  induction ft as [|row ft IH]; intros uu vv Hf Hu Hv H1 H2; [reflexivity|].
  destruct uu as [|us uu]; [cbn in H1; lia|].
  destruct vv as [|vs vv]; [cbn in H2; lia|].
  cbn in H1, H2. cbn [zip_with].
  apply Forall_cons in Hf as [Hf0 Hf]. apply Forall_cons in Hu as [Hu0 Hu].
  apply Forall_cons in Hv as [Hv0 Hv]. f_equal.
  - apply static_roundtrip_row; try assumption; lia.
  - apply IH; try assumption; lia.
Qed.

Lemma fftfreq_length (n : nat) (freq : list R) :
  fftfreq (Z.of_nat n) = Ok freq -> length freq = n.
Proof.
  unfold fftfreq. case_bool_decide; [discriminate|]. intros [= <-].
  rewrite length_fmap, length_app, !length_seqZ.
  assert (0 <= (Z.of_nat n - 1) `div` 2 /\
          (Z.of_nat n - 1) `div` 2 + 1 + Z.of_nat n `div` 2 = Z.of_nat n)%Z
    as [H0 H1].
  { destruct (Z.even (Z.of_nat n)) eqn:E.
    - apply Z.even_spec in E as [k Hk]. rewrite Hk.
      replace (2 * k - 1)%Z with ((k - 1) * 2 + 1)%Z by lia.
      rewrite Z.div_add_l by lia. replace (1 `div` 2)%Z with 0%Z by reflexivity.
      replace (2 * k)%Z with (k * 2)%Z by lia. rewrite Z.div_mul by lia. lia.
    - assert (Z.odd (Z.of_nat n) = true) as O
        by (rewrite <- Z.negb_even, E; reflexivity).
      apply Z.odd_spec in O as [k Hk]. rewrite Hk.
      replace (2 * k + 1 - 1)%Z with (k * 2)%Z by lia. rewrite Z.div_mul by lia.
      replace (2 * k + 1)%Z with (k * 2 + 1)%Z by lia.
      rewrite Z.div_add_l by lia. replace (1 `div` 2)%Z with 0%Z by reflexivity.
      lia. }
  assert (0 <= Z.of_nat n `div` 2)%Z by (apply Z.div_pos; lia).
  lia.
Qed.

Lemma fftshift_length (a : list R) : length (fftshift a) = length a.
Proof.
  unfold fftshift. rewrite length_app, length_drop, length_take.
  assert (length a `div` 2 <= length a)%nat
    by (apply Nat.Div0.div_le_upper_bound; lia).
  lia.
Qed.

(** On a square grid nothing is broadcast: every sample is rotated by the
    phase of its own cell. *)
Lemma Fourier_shift_static_square (ft : list (list complex))
    (x0 y0 wle maxuv : R) :
  wle <> 0 -> ft <> [] ->
  Forall (fun row : list complex => length row = length ft) ft ->
  exists freq,
    fftfreq (Z.of_nat (length ft)) = Ok freq /\
    let sf := (fun s : R => maxuv * s * 2 * PI) <$> fftshift freq in
    let uu := (fun _ : R => sf) <$> sf in
    let vv := (fun y : R => (fun _ : R => y) <$> sf) <$> sf in
    length uu = length ft /\ length vv = length ft /\
    Forall (fun row => length row = length ft) uu /\
    Forall (fun row => length row = length ft) vv /\
    Fourier_shift_static ft x0 y0 wle maxuv
    = Ok (zip_with (zip_with (fun z theta =>
              let cos_theta := cos theta in
              let sin_theta := sin theta in
              let re_v_shifted := re z * cos_theta - im z * sin_theta in
              let imag_v_shifted := im z * cos_theta + re z * sin_theta in
              Cadd (Cofreal re_v_shifted) (Cmul Ci (Cofreal imag_v_shifted))))
            ft
            (zip_with (zip_with (fun a b => a * (x0 * (sec2rad / wle))
                                            + b * (y0 * (sec2rad / wle))))
               uu vv)).
Proof.
  intros Hwle Hne Hsq. unfold Fourier_shift_static.
  rewrite bool_decide_eq_false_2 by assumption.
  destruct (fftfreq (Z.of_nat (length ft))) as [freq|e] eqn:Hfreq.
  2:{ unfold fftfreq in Hfreq. rewrite bool_decide_eq_false_2 in Hfreq;
        [discriminate | destruct ft; [congruence | cbn; lia]]. }
  pose proof (fftfreq_length _ _ Hfreq) as Hlen.
  exists freq. split; [reflexivity|]. cbv zeta.
  set (sf := (fun s : R => maxuv * s * 2 * PI) <$> fftshift freq).
  set (uu := (fun _ : R => sf) <$> sf).
  set (vv := (fun y : R => (fun _ : R => y) <$> sf) <$> sf).
  assert (length sf = length ft) as Hsf
    by (unfold sf; now rewrite length_fmap, fftshift_length).
  assert (Forall (fun row => length row = length ft) uu) as Huu.
  { unfold uu. apply Forall_fmap, Forall_forall. intros ? _. exact Hsf. }
  assert (Forall (fun row => length row = length ft) vv) as Hvv.
  { unfold vv. apply Forall_fmap, Forall_forall. intros ? _. cbn.
    now rewrite length_fmap. }
  assert (length uu = length ft) as Hluu by (unfold uu; now rewrite length_fmap).
  assert (length vv = length ft) as Hlvv by (unfold vv; now rewrite length_fmap).
  split; [assumption|]. split; [assumption|]. split; [assumption|].
  split; [assumption|].
  rewrite bind_Ok. unfold meshgrid. fold sf. fold uu. fold vv.
  apply broadcast_rows_same.
  intros i row g Hrow Hg.
  apply lookup_zip_with_Some in Hg as (a & b & -> & Ha & Hb).
  rewrite Forall_lookup in Hsq. rewrite Forall_lookup in Huu.
  rewrite Forall_lookup in Hvv.
  rewrite length_zip_with, (Hsq _ _ Hrow), (Huu _ _ Ha), (Hvv _ _ Hb). lia.
Qed.

Lemma Fourier_shift_static_roundtrip (ft : list (list complex))
    (x0 y0 wle maxuv : R) :
  wle <> 0 -> ft <> [] ->
  Forall (fun row : list complex => length row = length ft) ft ->
  exists shifted,
    Fourier_shift_static ft x0 y0 wle maxuv = Ok shifted /\
    Fourier_shift_static shifted (- x0) (- y0) wle maxuv = Ok ft.
Proof.
  intros Hwle Hne Hsq.
  destruct (Fourier_shift_static_square ft x0 y0 wle maxuv Hwle Hne Hsq)
    as (freq & Hfreq & Hluu & Hlvv & Huu & Hvv & Hrun).
  cbv zeta in Hluu, Hlvv, Huu, Hvv, Hrun.
  set (sf := (fun s : R => maxuv * s * 2 * PI) <$> fftshift freq) in *.
  set (uu := (fun _ : R => sf) <$> sf) in *.
  set (vv := (fun y : R => (fun _ : R => y) <$> sf) <$> sf) in *.
  eexists. split; [exact Hrun|].
  match goal with |- Fourier_shift_static ?s _ _ _ _ = _ =>
    assert (length s = length ft) as Hls by (rewrite !length_zip_with; lia);
    assert (Forall (fun row : list complex => length row = length s) s) as Hsq'
  end.
  { rewrite Hls. apply Forall_lookup. intros i row Hrow.
    apply lookup_zip_with_Some in Hrow as (r & g & -> & Hr & Hg).
    apply lookup_zip_with_Some in Hg as (a & b & -> & Ha & Hb).
    rewrite Forall_lookup in Hsq. rewrite Forall_lookup in Huu.
    rewrite Forall_lookup in Hvv.
    rewrite !length_zip_with, (Hsq _ _ Hr), (Huu _ _ Ha), (Hvv _ _ Hb). lia. }
  match goal with |- Fourier_shift_static ?s _ _ _ _ = _ =>
    destruct (Fourier_shift_static_square s (- x0) (- y0) wle maxuv Hwle)
      as (freq' & Hfreq' & _ & _ & _ & _ & Hrun'); [|exact Hsq'|]
  end.
  { intros Hnil. rewrite Hnil in Hls. destruct ft; [congruence|discriminate]. }
  rewrite Hls, Hfreq in Hfreq'. injection Hfreq' as <-.
  cbv zeta in Hrun'. fold sf in Hrun'. fold uu in Hrun'. fold vv in Hrun'.
  rewrite Hrun'. f_equal.
  apply (static_roundtrip_grid (x0 * (sec2rad / wle)) (y0 * (sec2rad / wle))
           (- x0 * (sec2rad / wle)) (- y0 * (sec2rad / wle)) (length ft));
    try assumption; try ring; lia.
Qed.

(** C8. Shifting by [(x0, y0)] and then by [(-x0, -y0)] restores the
    input exactly (in real arithmetic): for the point form
    [Fourier_shift_array] on visibilities with their [(u, v)] coordinates,
    and for the grid form [Fourier_shift_static] on a square grid with a
    wavelength [wle <> 0] (for [wle = 0] the call raises). *)
Theorem phase_shift_roundtrip :
  (forall (u v : list R) (fint : list complex) (x0 y0 : R),
     length u = length v -> length fint = length u ->
     exists shifted,
       Fourier_shift_array u v fint x0 y0 = Ok shifted /\
       Fourier_shift_array u v shifted (- x0) (- y0) = Ok fint) /\
  (forall (ft : list (list complex)) (x0 y0 wle maxuv : R),
     wle <> 0 ->
     ft <> [] ->
     Forall (fun row : list complex => length row = length ft) ft ->
     exists shifted,
       Fourier_shift_static ft x0 y0 wle maxuv = Ok shifted /\
       Fourier_shift_static shifted (- x0) (- y0) wle maxuv = Ok ft).
Proof.
  split.
  - exact Fourier_shift_array_roundtrip.
  - exact Fourier_shift_static_roundtrip.
Qed.

Lemma phase_shift_roundtrip_witness :
  (exists shifted,
     Fourier_shift_array [1; 2] [3; 4] [Cplx 1 2; Cplx 3 4] 5 6 = Ok shifted /\
     Fourier_shift_array [1; 2] [3; 4] shifted (- 5) (- 6)
     = Ok [Cplx 1 2; Cplx 3 4]) /\
  (exists shifted,
     Fourier_shift_static [[Cplx 1 2; Cplx 3 4]; [Cplx 5 6; Cplx 7 8]] 5 6 1 2
     = Ok shifted /\
     Fourier_shift_static shifted (- 5) (- 6) 1 2
     = Ok [[Cplx 1 2; Cplx 3 4]; [Cplx 5 6; Cplx 7 8]]).
Proof.
  split.
  - apply (proj1 phase_shift_roundtrip [1; 2] [3; 4] [Cplx 1 2; Cplx 3 4] 5 6);
      reflexivity.
  - apply (proj2 phase_shift_roundtrip
             [[Cplx 1 2; Cplx 3 4]; [Cplx 5 6; Cplx 7 8]] 5 6 1 2).
    + lra.
    + discriminate.
    + repeat constructor.
Defined.

(** ** [linspace] and [radial_profile] *)

Lemma linspace_Ok (start stop : R) (num : Z) :
  (0 <= num)%Z ->
  exists l,
    linspace start stop num = Ok l /\
    length l = Z.to_nat num /\
    forall i, (0 <= i < num)%Z ->
      l !! Z.to_nat i =
        Some (if bool_decide (1 < num /\ i = num - 1)%Z then stop
              else IZR i * ((stop - start) / IZR (num - 1)) + start).
Proof.
  intros Hn. unfold linspace. rewrite bool_decide_eq_false_2 by lia.
  eexists. split; [reflexivity|]. unfold range. split.
  - rewrite length_fmap, length_seqZ. reflexivity.
  - intros i Hi. rewrite list_lookup_fmap.
    rewrite (lookup_seqZ_lt 0 num (Z.to_nat i)) by lia.
    cbn. now rewrite Z2Nat.id, Z.add_0_l by lia.
Qed.

(** The radial grid: sample [i] of [linspace(Rmin, Rmin + dR*(n-1), n)]
    is [Rmin + i*dR]. *)
Lemma linspace_grid (Rmin dR : R) (n : Z) :
  (0 <= n)%Z ->
  exists l,
    linspace Rmin (Rmin + dR * IZR (n - 1)) n = Ok l /\
    length l = Z.to_nat n /\
    forall i, (0 <= i < n)%Z -> l !! Z.to_nat i = Some (Rmin + IZR i * dR).
Proof.
  intros Hn.
  destruct (linspace_Ok Rmin (Rmin + dR * IZR (n - 1)) n Hn) as (l & Hl & Hlen & Hv).
  exists l. split; [assumption|]. split; [assumption|].
  intros i Hi. rewrite (Hv i Hi). f_equal.
  case_bool_decide as Hlast.
  - destruct Hlast as [_ ->]. ring.
  - destruct (Z.eq_dec n 1%Z) as [->|Hn1].
    + replace i with 0%Z by lia. cbn. lra.
    + assert (IZR (n - 1) <> 0) by (apply not_0_IZR; lia). field. assumption.
Qed.

(** C10. [radial_profile] is defined for the modes ['Gauss'] and
    ['Cos-Gauss'] only: for these it returns [nrad] intensities, sample [i]
    being the profile evaluated at [Rmin + i * delta_R]; for any other mode
    string [ints] is never bound and the call raises. *)
Theorem radial_profile_modes (Rmin delta_R : R) (nrad : Z) (mode : string)
    (gauss_width : R) :
  (0 <= nrad)%Z ->
  (mode = "Gauss"%string ->
     exists ints,
       radial_profile Rmin delta_R nrad mode gauss_width = Ok ints /\
       length ints = Z.to_nat nrad /\
       forall i, (0 <= i < nrad)%Z ->
         ints !! Z.to_nat i =
           Some (exp (- ((Rmin + IZR i * delta_R) / delta_R / gauss_width) ^ 2))) /\
  (mode = "Cos-Gauss"%string ->
     exists ints,
       radial_profile Rmin delta_R nrad mode gauss_width = Ok ints /\
       length ints = Z.to_nat nrad /\
       forall i, (0 <= i < nrad)%Z ->
         ints !! Z.to_nat i =
           Some (cos (2 * PI * (Rmin + IZR i * delta_R) / (50 * delta_R)) ^ 2
                 * exp (- ((Rmin + IZR i * delta_R) / delta_R / 80) ^ 2))) /\
  (mode <> "Gauss"%string -> mode <> "Cos-Gauss"%string ->
     radial_profile Rmin delta_R nrad mode gauss_width = Raise UnboundLocalError).
Proof.
  intros Hn.
  destruct (linspace_grid Rmin delta_R nrad Hn) as (grid & Hgrid & Hlen & Hv).
  unfold radial_profile. rewrite Hgrid, bind_Ok.
  split; [|split].
  - intros ->. cbn [String.eqb Ascii.eqb Bool.eqb]. cbn.
    eexists. split; [reflexivity|]. split; [now rewrite length_fmap|].
    intros i Hi. now rewrite list_lookup_fmap, (Hv i Hi).
  - intros ->. cbn.
    eexists. split; [reflexivity|]. split; [now rewrite length_fmap|].
    intros i Hi. now rewrite list_lookup_fmap, (Hv i Hi).
  - intros H1 H2.
    apply String.eqb_neq in H1. apply String.eqb_neq in H2.
    now rewrite H1, H2.
Qed.

Lemma radial_profile_modes_witness :
  (exists ints, radial_profile 0 1 3 "Gauss" 100 = Ok ints /\ length ints = 3%nat) /\
  radial_profile 0 1 3 "Lorentz" 100 = Raise UnboundLocalError.
Proof.
  destruct (radial_profile_modes 0 1 3 "Gauss" 100 ltac:(lia)) as (HG & _ & _).
  destruct (radial_profile_modes 0 1 3 "Lorentz" 100 ltac:(lia)) as (_ & _ & HL).
  split.
  - destruct (HG eq_refl) as (ints & Hrun & Hlen & _). exists ints. now split.
  - apply HL; discriminate.
Defined.

(** ** Writing one pixel *)

Lemma shape2_lookup (f : list (list R)) (nrow ncol r : nat) (row : list R) :
  shape2 f nrow ncol -> f !! r = Some row -> length row = ncol.
Proof. intros [_ H] Hr. rewrite Forall_lookup in H. eauto. Qed.

Lemma setitem2_pixel (f : list (list R)) (nrow ncol : nat) (i j : Z) (v : R) :
  shape2 f nrow ncol ->
  (0 <= i < Z.of_nat nrow)%Z -> (0 <= j < Z.of_nat ncol)%Z ->
  exists f',
    setitem2 f i j v = Ok f' /\
    shape2 f' nrow ncol /\
    forall r c,
      pixel f' r c =
        if bool_decide (r = Z.to_nat i /\ c = Z.to_nat j) then Some v
        else pixel f r c.
Proof.
  intros Hf Hi Hj. pose proof Hf as [Hlen Hrows].
  destruct (lookup_lt_is_Some_2 f (Z.to_nat i)) as [row Hrow]; [lia|].
  pose proof (shape2_lookup _ _ _ _ _ Hf Hrow) as Hrl.
  rewrite (setitem2_nonneg f i j row v) by (lia || assumption).
  eexists. split; [reflexivity|]. split.
  - split; [now rewrite length_insert|].
    apply Forall_insert; [assumption|]. now rewrite length_insert.
  - intros r c. unfold pixel.
    destruct (decide (r = Z.to_nat i)) as [->|Hr].
    + rewrite list_lookup_insert_eq by lia. rewrite Hrow. cbn.
      destruct (decide (c = Z.to_nat j)) as [->|Hc].
      * rewrite bool_decide_eq_true_2 by auto.
        apply list_lookup_insert_eq. lia.
      * rewrite bool_decide_eq_false_2 by (intros [_ ?]; auto).
        now apply list_lookup_insert_ne.
    + rewrite list_lookup_insert_ne by auto.
      now rewrite bool_decide_eq_false_2 by (intros [? _]; auto).
Qed.

Lemma zeros2_Ok (nrow ncol : Z) :
  (0 <= nrow)%Z -> (0 <= ncol)%Z ->
  exists f,
    zeros2 nrow ncol = Ok f /\
    shape2 f (Z.to_nat nrow) (Z.to_nat ncol) /\
    forall r c, (r < Z.to_nat nrow)%nat -> (c < Z.to_nat ncol)%nat ->
      pixel f r c = Some 0.
Proof.
  intros Hr Hc. unfold zeros2. rewrite bool_decide_eq_false_2 by lia.
  eexists. split; [reflexivity|]. split.
  - split; [apply length_replicate|].
    apply Forall_replicate. apply length_replicate.
  - intros r c Hr' Hc'. unfold pixel.
    rewrite lookup_replicate_2 by assumption. cbn.
    now apply lookup_replicate_2.
Qed.

Lemma pixel_shape_is_Some (f : list (list R)) (nrow ncol r c : nat) :
  shape2 f nrow ncol -> is_Some (pixel f r c) -> (r < nrow)%nat /\ (c < ncol)%nat.
Proof.
  intros Hf [v Hv]. unfold pixel in Hv.
  destruct (f !! r) as [row|] eqn:Hrow; [|discriminate]. cbn in Hv.
  pose proof (shape2_lookup _ _ _ _ _ Hf Hrow).
  apply lookup_lt_Some in Hrow, Hv. destruct Hf as [Hl _]. lia.
Qed.

(** ** The loop body of [g_sweep_prototype] *)

Lemma g_sweep_body_value (I : list R) (Rmin dR dxy inc_cos : R)
    (nrad rmax row_offset col_offset irow jcol : Z) (image : list (list R)) :
  g_sweep_body I Rmin dR dxy inc_cos nrad rmax row_offset col_offset irow jcol image
  = (v ← g_sweep_value I Rmin dR dxy inc_cos nrad rmax irow jcol;
     setitem2 image (irow + row_offset) (jcol + col_offset) v).
Proof.
  unfold g_sweep_body, g_sweep_value. cbv zeta.
  case_bool_decide; [reflexivity|].
  set (iR := Zfloor _).
  destruct (getitem I iR) as [a|e]; [|reflexivity]. rewrite !bind_Ok.
  destruct (getitem I (iR + 1)) as [b|e]; reflexivity.
Qed.

Lemma getitem_nth (I : list R) (k : Z) :
  (0 <= k < Z.of_nat (length I))%Z -> getitem I k = Ok (nth (Z.to_nat k) I 0).
Proof.
  intros Hk. apply getitem_nonneg; [lia|].
  destruct (nth_lookup_or_length I (Z.to_nat k) 0) as [H|H]; [assumption|lia].
Qed.

(** A pixel other than the window centre is at least [|dxy|] away. *)
Lemma radius_off_center (dxy inc_cos : R) (a b : Z) :
  inc_cos <> 0 -> -1 <= inc_cos <= 1 ->
  (a <> 0 \/ b <> 0)%Z ->
  Rabs dxy <= sqrt ((IZR a * dxy / inc_cos) ^ 2 + (IZR b * dxy) ^ 2).
Proof.
  intros Hc Hc1 Hab.
  rewrite <- sqrt_Rsqr_abs. apply sqrt_le_1_alt. unfold Rsqr.
  assert (0 < inc_cos * inc_cos <= 1) as Hcc by nra.
  assert (1 <= / (inc_cos * inc_cos)) as Hinv.
  { rewrite <- Rinv_1 at 1. apply Rinv_le_contravar; lra. }
  assert (forall k : Z, k <> 0%Z -> 1 <= IZR k * IZR k) as Hsq.
  { intros k Hk. rewrite <- mult_IZR. apply IZR_le. nia. }
  assert (forall k : Z, 0 <= IZR k * IZR k) as Hsq0
    by (intros k; rewrite <- mult_IZR; apply IZR_le; nia).
  assert ((IZR a * dxy / inc_cos) ^ 2 + (IZR b * dxy) ^ 2
          = (IZR a * IZR a) * (dxy * dxy) * / (inc_cos * inc_cos)
            + (IZR b * IZR b) * (dxy * dxy)) as ->
    by (field; assumption).
  pose proof (Hsq0 a) as HA0. pose proof (Hsq0 b) as HB0.
  assert (0 <= dxy * dxy) as HD by nra.
  set (A := IZR a * IZR a) in *. set (B := IZR b * IZR b) in *.
  set (D := dxy * dxy) in *. set (K := / (inc_cos * inc_cos)) in *.
  assert (0 <= A * D) as HAD by (apply Rmult_le_pos; assumption).
  assert (0 <= B * D) as HBD by (apply Rmult_le_pos; assumption).
  assert (A * D <= A * D * K) as HADK.
  { rewrite <- (Rmult_1_r (A * D)) at 1. apply Rmult_le_compat_l; assumption. }
  destruct Hab as [Ha|Hb].
  - assert (D <= A * D).
    { rewrite <- (Rmult_1_l D) at 1. apply Rmult_le_compat_r; [assumption|].
      apply Hsq, Ha. }
    lra.
  - assert (D <= B * D).
    { rewrite <- (Rmult_1_l D) at 1. apply Rmult_le_compat_r; [assumption|].
      apply Hsq, Hb. }
    lra.
Qed.

Lemma g_sweep_value_off_center (I : list R) (Rmin dR dxy inc_cos : R)
    (rmax irow jcol : Z) :
  0 < dR -> Rmin <= dxy -> inc_cos <> 0 -> -1 <= inc_cos <= 1 ->
  (irow <> rmax \/ jcol <> rmax)%Z ->
  let rr := deprojected_radius (IZR (rmax - jcol) * dxy)
                               (IZR (rmax - irow) * dxy) inc_cos in
  Rmin <= rr /\
  g_sweep_value I Rmin dR dxy inc_cos (Z.of_nat (length I)) rmax irow jcol
  = Ok (profile_interp I Rmin dR rr).
Proof.
  intros HdR HRmin Hc Hc1 Hoff rr.
  assert (Rabs dxy <= rr) as Hrr.
  { apply radius_off_center; try assumption. lia. }
  assert (Rmin <= rr) as Hge by (pose proof (Rle_abs dxy); lra).
  split; [assumption|].
  unfold g_sweep_value, profile_interp. cbv zeta. fold (deprojected_radius
    (IZR (rmax - jcol) * dxy) (IZR (rmax - irow) * dxy) inc_cos). fold rr.
  assert (0 <= Zfloor ((rr - Rmin) / dR))%Z as H0.
  { apply Zfloor_lub. cbn. apply Rmult_le_pos; [lra|].
    apply Rlt_le, Rinv_0_lt_compat, HdR. }
  case_bool_decide as Hbin; [reflexivity|].
  rewrite !getitem_nth by lia. reflexivity.
Qed.

Lemma g_sweep_value_center (I : list R) (Rmin dR dxy inc_cos : R) (rmax : Z) :
  0 < dR -> Rmin <= IZR (Z.of_nat (length I)) * dR ->
  exists v,
    g_sweep_value I Rmin dR dxy inc_cos (Z.of_nat (length I)) rmax rmax rmax = Ok v.
Proof.
  intros HdR Hwide. unfold g_sweep_value. cbv zeta.
  rewrite Z.sub_diag.
  assert ((0 * dxy / inc_cos) ^ 2 + (0 * dxy) ^ 2 = 0) as -> by (unfold Rdiv; ring).
  rewrite sqrt_0.
  set (iR := Zfloor ((0 - Rmin) / dR)).
  assert (- Z.of_nat (length I) <= iR)%Z as Hlow.
  { apply Zfloor_lub. rewrite opp_IZR.
    apply Rmult_le_reg_r with dR; [assumption|].
    unfold Rdiv. rewrite Rmult_assoc, Rinv_l by lra. lra. }
  case_bool_decide as Hbin; [eauto|].
  destruct (getitem_in_range I iR) as [a Ha]; [lia|].
  destruct (getitem_in_range I (iR + 1)) as [b Hb]; [lia|].
  rewrite Ha, bind_Ok, Hb, bind_Ok. eauto.
Qed.

(** ** The nested loops over the window *)

Lemma for_each_ext {A St : Type} (f g : A -> St -> result St) (l : list A) :
  (forall x s, f x s = g x s) -> forall s, for_each l f s = for_each l g s.
Proof.
  intros Hfg. induction l as [|x l IH]; intros s; cbn; [reflexivity|].
  rewrite Hfg. destruct (g x s); cbn; [apply IH | reflexivity].
Qed.

Lemma window_loops (val : Z -> Z -> result R) (nr nc : nat) (ro co W : Z)
    (img0 : list (list R)) :
  shape2 img0 nr nc ->
  (forall r c, (r < nr)%nat -> (c < nc)%nat -> pixel img0 r c = Some 0) ->
  (0 <= ro)%Z -> (ro + W <= Z.of_nat nr)%Z ->
  (0 <= co)%Z -> (co + W <= Z.of_nat nc)%Z ->
  (forall ir jc, (0 <= ir < W)%Z -> (0 <= jc < W)%Z -> exists v, val ir jc = Ok v) ->
  exists img,
    for_each (range W) (fun ir image =>
      for_each (range W) (fun jc image =>
        v ← val ir jc; setitem2 image (ir + ro) (jc + co) v) image) img0 = Ok img /\
    shape2 img nr nc /\
    forall r c, (r < nr)%nat -> (c < nc)%nat ->
      pixel img r c =
        Some (if bool_decide (ro <= Z.of_nat r < ro + W /\
                              co <= Z.of_nat c < co + W)%Z
              then value_or_zero (val (Z.of_nat r - ro) (Z.of_nat c - co))%Z
              else 0).
Proof.
  intros Hshape Hzero Hro HroW Hco HcoW Hval.
  destruct (for_each_range_inv
    (fun k img =>
       shape2 img nr nc /\
       forall r c, (r < nr)%nat -> (c < nc)%nat ->
         pixel img r c =
           Some (if bool_decide (ro <= Z.of_nat r < ro + k /\
                                 co <= Z.of_nat c < co + W)%Z
                 then value_or_zero (val (Z.of_nat r - ro) (Z.of_nat c - co))%Z
                 else 0))
    (fun ir image =>
      for_each (range W) (fun jc image =>
        v ← val ir jc; setitem2 image (ir + ro) (jc + co) v) image)
    W img0) as (img & Hrun & Hs & Hpix).
  - split; [assumption|]. intros r c Hr Hc.
    rewrite bool_decide_eq_false_2 by lia. now apply Hzero.
  - intros ir img Hir [Hs Hpix].
    destruct (for_each_range_inv
      (fun j img' =>
         shape2 img' nr nc /\
         forall r c, (r < nr)%nat -> (c < nc)%nat ->
           pixel img' r c =
             Some (if bool_decide
                        ((ro <= Z.of_nat r < ro + ir /\ co <= Z.of_nat c < co + W) \/
                         (Z.of_nat r = ro + ir /\ co <= Z.of_nat c < co + j))%Z
                   then value_or_zero (val (Z.of_nat r - ro) (Z.of_nat c - co))%Z
                   else 0))
      (fun jc image => v ← val ir jc; setitem2 image (ir + ro) (jc + co) v)
      W img) as (img' & Hrun' & Hs' & Hpix').
    + split; [assumption|]. intros r c Hr Hc. rewrite (Hpix r c Hr Hc).
      f_equal. repeat case_bool_decide; try reflexivity; lia.
    + intros jc img1 Hjc [Hs1 Hpix1].
      destruct (Hval ir jc Hir Hjc) as [v Hv]. rewrite Hv, bind_Ok.
      destruct (setitem2_pixel img1 nr nc (ir + ro) (jc + co) v Hs1)
        as (img2 & Hset & Hs2 & Hpix2); [lia|lia|].
      exists img2. split; [assumption|]. split; [assumption|].
      intros r c Hr Hc. rewrite Hpix2. case_bool_decide as Hhere.
      * destruct Hhere as [-> ->].
        rewrite bool_decide_eq_true_2 by lia. f_equal.
        replace (Z.of_nat (Z.to_nat (ir + ro)) - ro)%Z with ir by lia.
        replace (Z.of_nat (Z.to_nat (jc + co)) - co)%Z with jc by lia.
        now rewrite Hv.
      * rewrite (Hpix1 r c Hr Hc). f_equal.
        repeat case_bool_decide; try reflexivity; lia.
    + exists img'. split; [assumption|]. split; [assumption|].
      intros r c Hr Hc. rewrite (Hpix' r c Hr Hc). f_equal.
      replace (Z.max 0 W) with W by lia.
      repeat case_bool_decide; try reflexivity; lia.
  - exists img. split; [assumption|]. split; [assumption|].
    intros r c Hr Hc. rewrite (Hpix r c Hr Hc). f_equal.
    repeat case_bool_decide; try reflexivity; lia.
Qed.

(** ** A full run of [g_sweep_prototype] *)

Lemma quot2_facts (n : Z) :
  (0 <= n)%Z -> (0 <= n ÷ 2 /\ 2 * (n ÷ 2) <= n)%Z.
Proof.
  intros Hn. rewrite Z.quot_div_nonneg by lia. split.
  - apply Z.div_pos; lia.
  - apply Z.mul_div_le. lia.
Qed.

Lemma quot2_mono (n m : Z) :
  (0 <= n <= m)%Z -> (n ÷ 2 <= m ÷ 2)%Z.
Proof.
  intros H. rewrite !Z.quot_div_nonneg by lia. apply Z.div_le_mono; lia.
Qed.

Lemma g_sweep_prototype_run_fit (I : list R) (Rmin dR : R) (nrow ncol : Z)
    (dxy inc : R) :
  Rmin <= dxy -> 0 < dR -> cos (inc / 180 * PI) <> 0 ->
  (2 <= length I)%nat -> (1 <= nrow)%Z -> (1 <= ncol)%Z ->
  (sweep_rmax I Rmin dR dxy nrow <= ncol ÷ 2)%Z ->
  Rmin <= IZR (Z.of_nat (length I)) * dR ->
  let inc_cos := cos (inc / 180 * PI) in
  let rmax := sweep_rmax I Rmin dR dxy nrow in
  let ro := (nrow ÷ 2 - rmax)%Z in
  let co := (ncol ÷ 2 - rmax)%Z in
  exists image,
    g_sweep_prototype I Rmin dR nrow ncol dxy inc = Ok image /\
    shape2 image (Z.to_nat nrow) (Z.to_nat ncol) /\
    forall r c, (r < Z.to_nat nrow)%nat -> (c < Z.to_nat ncol)%nat ->
      pixel image r c =
        Some (if bool_decide (Rmin <> 0 /\ r = Z.to_nat (nrow ÷ 2)
                              /\ c = Z.to_nat (ncol ÷ 2))
              then center_value I Rmin dR
              else if bool_decide (ro <= Z.of_nat r < ro + rmax * 2 /\
                                   co <= Z.of_nat c < co + rmax * 2)%Z
              then value_or_zero
                     (g_sweep_value I Rmin dR dxy inc_cos (Z.of_nat (length I))
                        rmax (Z.of_nat r - ro) (Z.of_nat c - co))
              else 0).
Proof.
  intros HRmin HdR Hcos Hn Hnrow Hncol Hfit Hwide inc_cos rmax ro co.
  unfold g_sweep_prototype. rewrite bool_decide_eq_true_2 by assumption.
  destruct (zeros2_Ok nrow ncol) as (img0 & Hz & Hs0 & Hp0); [lia|lia|].
  rewrite Hz, bind_Ok. fold inc_cos. fold (sweep_rmax I Rmin dR dxy nrow).
  fold rmax. fold ro. fold co.
  pose proof (quot2_facts nrow ltac:(lia)) as Hqr.
  pose proof (quot2_facts ncol ltac:(lia)) as Hqc.
  fold rmax in Hfit.
  assert (rmax <= nrow ÷ 2)%Z as Hrmax by (unfold rmax, sweep_rmax; lia).
  assert (0 <= ro /\ ro + rmax * 2 <= nrow /\ 0 <= co /\ co + rmax * 2 <= ncol)%Z
    as (Hro & HroW & Hco & HcoW) by (unfold ro, co; lia).
  rewrite (for_each_ext _ (fun ir image =>
      for_each (range (rmax * 2)) (fun jc image =>
        v ← g_sweep_value I Rmin dR dxy inc_cos (Z.of_nat (length I)) rmax ir jc;
        setitem2 image (ir + ro) (jc + co) v) image)).
  2:{ intros ir s. apply for_each_ext. intros jc s'. apply g_sweep_body_value. }
  destruct (window_loops
    (g_sweep_value I Rmin dR dxy inc_cos (Z.of_nat (length I)) rmax)
    (Z.to_nat nrow) (Z.to_nat ncol) ro co (rmax * 2) img0 Hs0 Hp0)
    as (img & Hrun & Hs & Hpix); try lia.
  { intros ir jc Hir Hjc.
    destruct (decide (ir = rmax /\ jc = rmax)) as [[-> ->]|Hoff].
    - now apply g_sweep_value_center.
    - eexists. eapply g_sweep_value_off_center; try eassumption.
      + apply COS_bound.
      + lia. }
  rewrite Hrun, bind_Ok.
  case_bool_decide as HR0.
  - rewrite !getitem_nth by lia. rewrite !bind_Ok.
    destruct (setitem2_pixel img (Z.to_nat nrow) (Z.to_nat ncol)
                (nrow ÷ 2) (ncol ÷ 2)
                (nth (Z.to_nat 0) I 0
                 + Rmin * (nth (Z.to_nat 0) I 0 - nth (Z.to_nat 1) I 0) / dR) Hs)
      as (img' & Hset & Hs' & Hpix'); [lia|lia|].
    exists img'. split; [assumption|]. split; [assumption|].
    intros r c Hr Hc. rewrite Hpix'. case_bool_decide as Hcen.
    + rewrite bool_decide_eq_true_2 by tauto. reflexivity.
    + rewrite bool_decide_eq_false_2 by tauto. now apply Hpix.
  - exists img. split; [reflexivity|]. split; [assumption|].
    intros r c Hr Hc. rewrite bool_decide_eq_false_2 by tauto. now apply Hpix.
Qed.

Lemma g_sweep_prototype_run (I : list R) (Rmin dR : R) (nrow ncol : Z)
    (dxy inc : R) :
  Rmin <= dxy -> 0 < dR -> cos (inc / 180 * PI) <> 0 ->
  (2 <= length I)%nat -> (1 <= nrow <= ncol)%Z ->
  Rmin <= IZR (Z.of_nat (length I)) * dR ->
  let inc_cos := cos (inc / 180 * PI) in
  let rmax := sweep_rmax I Rmin dR dxy nrow in
  let ro := (nrow ÷ 2 - rmax)%Z in
  let co := (ncol ÷ 2 - rmax)%Z in
  exists image,
    g_sweep_prototype I Rmin dR nrow ncol dxy inc = Ok image /\
    shape2 image (Z.to_nat nrow) (Z.to_nat ncol) /\
    forall r c, (r < Z.to_nat nrow)%nat -> (c < Z.to_nat ncol)%nat ->
      pixel image r c =
        Some (if bool_decide (Rmin <> 0 /\ r = Z.to_nat (nrow ÷ 2)
                              /\ c = Z.to_nat (ncol ÷ 2))
              then center_value I Rmin dR
              else if bool_decide (ro <= Z.of_nat r < ro + rmax * 2 /\
                                   co <= Z.of_nat c < co + rmax * 2)%Z
              then value_or_zero
                     (g_sweep_value I Rmin dR dxy inc_cos (Z.of_nat (length I))
                        rmax (Z.of_nat r - ro) (Z.of_nat c - co))
              else 0).
Proof.
  intros HRmin HdR Hcos Hn Hdim Hwide.
  apply g_sweep_prototype_run_fit; try assumption; try lia.
  pose proof (quot2_mono nrow ncol ltac:(lia)).
  unfold sweep_rmax. lia.
Qed.


(** ** A full run of [sweep_ref] *)

Lemma half_decimal : 0.5 = 1 / 2.
Proof. lra. Qed.

Lemma neg_half_decimal : -0.5 = - (1 / 2).
Proof. lra. Qed.

(** Pixel centres of the mesh: sample [j] of
    [linspace(0.5, -0.5 + 1/n, n) * dxy * n] is [(n/2 - j) * dxy]. *)
Lemma mesh_axis (n : Z) (dxy : R) :
  (1 <= n)%Z ->
  exists l,
    linspace 0.5 (- 0.5 + 1 / IZR n) n = Ok l /\
    length l = Z.to_nat n /\
    forall j, (0 <= j < n)%Z ->
      ((fun t => t * dxy * IZR n) <$> l) !! Z.to_nat j
      = Some ((IZR n / 2 - IZR j) * dxy).
Proof.
  intros Hn.
  destruct (linspace_Ok 0.5 (- 0.5 + 1 / IZR n) n ltac:(lia)) as (l & Hl & Hlen & Hv).
  exists l. split; [assumption|]. split; [assumption|].
  intros j Hj. rewrite list_lookup_fmap, (Hv j Hj).
  cbv [fmap option_fmap option_map]. f_equal.
  assert (IZR n <> 0) as Hn0 by (apply not_0_IZR; lia).
  rewrite ?half_decimal, ?neg_half_decimal.
  case_bool_decide as Hlast.
  - destruct Hlast as [_ ->]. rewrite minus_IZR. field. assumption.
  - destruct (Z.eq_dec n 1%Z) as [->|Hn1].
    + replace j with 0%Z by lia. cbn. lra.
    + assert (IZR (n - 1) <> 0) as Hn1' by (apply not_0_IZR; lia).
      rewrite minus_IZR in *. field. split; assumption.
Qed.

Lemma mesh_pixel (f : R -> R) (g : R -> R -> R) (xs ys : list R) (r c : nat) :
  pixel (fmap (M:=list) (fmap (M:=list) f)
           (zip_with (zip_with g)
              ((fun _ : R => xs) <$> ys)
              ((fun y : R => (fun _ : R => y) <$> xs) <$> ys))) r c
  = (y ← ys !! r; x ← xs !! c; Some (f (g x y))).
Proof.
  unfold pixel. rewrite list_lookup_fmap, lookup_zip_with, !list_lookup_fmap.
  destruct (ys !! r) as [y|]; [|reflexivity]. cbn.
  rewrite list_lookup_fmap, lookup_zip_with, list_lookup_fmap.
  destruct (xs !! c) as [x|]; reflexivity.
Qed.

Lemma mesh_shape (f : R -> R) (g : R -> R -> R) (xs ys : list R) :
  shape2 (fmap (M:=list) (fmap (M:=list) f)
            (zip_with (zip_with g)
               ((fun _ : R => xs) <$> ys)
               ((fun y : R => (fun _ : R => y) <$> xs) <$> ys)))
         (length ys) (length xs).
Proof.
  split.
  - rewrite length_fmap, length_zip_with, !length_fmap. lia.
  - apply Forall_lookup. intros i row Hrow.
    rewrite list_lookup_fmap, lookup_zip_with, !list_lookup_fmap in Hrow.
    destruct (ys !! i) as [y|]; [|discriminate]. cbn in Hrow.
    injection Hrow as <-.
    rewrite length_fmap, length_zip_with, length_fmap. lia.
Qed.

Lemma sweep_ref_run (I : list R) (Rmin dR : R) (nrow ncol : Z)
    (dxy inc Dx Dy : R) :
  (2 <= length I)%nat -> (1 <= nrow)%Z -> (1 <= ncol)%Z ->
  let inc_cos := cos (inc / 180 * PI) in
  exists image gridrad,
    linspace Rmin (Rmin + dR * IZR (Z.of_nat (length I) - 1))
      (Z.of_nat (length I)) = Ok gridrad /\
    sweep_ref I Rmin dR nrow ncol dxy inc Dx Dy = Ok image /\
    shape2 image (Z.to_nat nrow) (Z.to_nat ncol) /\
    forall r c, (r < Z.to_nat nrow)%nat -> (c < Z.to_nat ncol)%nat ->
      pixel image r c =
        Some (if bool_decide (r = Z.to_nat (nrow ÷ 2) /\ c = Z.to_nat (ncol ÷ 2))
              then interp1d_eval gridrad I None 0
              else interp1d_eval gridrad I (Some 0)
                     (sqrt ((((IZR ncol / 2 - IZR (Z.of_nat c)) * dxy - Dx * dxy)
                             / inc_cos) ^ 2
                            + ((IZR nrow / 2 - IZR (Z.of_nat r)) * dxy - Dy * dxy) ^ 2))).
Proof.
  intros Hn Hnrow Hncol inc_cos.
  destruct (linspace_grid Rmin dR (Z.of_nat (length I)) ltac:(lia))
    as (grid & Hgrid & Hglen & _).
  destruct (mesh_axis ncol dxy Hncol) as (xl & Hxl & Hxlen & Hx).
  destruct (mesh_axis nrow dxy Hnrow) as (yl & Hyl & Hylen & Hy).
  unfold sweep_ref. fold inc_cos.
  rewrite Hgrid, bind_Ok. unfold float_recip.
  rewrite (bool_decide_eq_false_2 (ncol = 0)%Z) by lia.
  rewrite bind_Ok, Hxl, bind_Ok.
  rewrite (bool_decide_eq_false_2 (nrow = 0)%Z) by lia.
  rewrite bind_Ok, Hyl, bind_Ok.
  unfold meshgrid, interp1d.
  rewrite (bool_decide_eq_false_2 (length grid <> length I)) by lia.
  rewrite (bool_decide_eq_false_2 (length grid < 2)%nat) by lia.
  rewrite !bind_Ok.
  pose proof (quot2_facts nrow ltac:(lia)) as Hqr.
  pose proof (quot2_facts ncol ltac:(lia)) as Hqc.
  match goal with |- exists image gridrad, _ /\ setitem2 ?m _ _ ?v = _ /\ _ =>
    destruct (setitem2_pixel m (Z.to_nat nrow) (Z.to_nat ncol)
                (nrow ÷ 2) (ncol ÷ 2) v) as (img & Hset & Hs & Hpix)
  end.
  - replace (Z.to_nat nrow) with
      (length ((fun t : R => t - Dy * dxy) <$> ((fun t => t * dxy * IZR nrow) <$> yl)))
      by (rewrite !length_fmap; assumption).
    replace (Z.to_nat ncol) with
      (length ((fun t : R => (t - Dx * dxy) / inc_cos)
                 <$> ((fun t => t * dxy * IZR ncol) <$> xl)))
      by (rewrite !length_fmap; assumption).
    apply mesh_shape.
  - lia.
  - lia.
  - exists img, grid. split; [reflexivity|]. split; [assumption|].
    split; [assumption|].
    intros r c Hr Hc. rewrite Hpix. case_bool_decide; [reflexivity|].
    pose proof (Hy (Z.of_nat r) ltac:(lia)) as Hyr. rewrite Nat2Z.id in Hyr.
    pose proof (Hx (Z.of_nat c) ltac:(lia)) as Hxc. rewrite Nat2Z.id in Hxc.
    rewrite mesh_pixel.
    rewrite (list_lookup_fmap (fun t : R => t - Dy * dxy)), Hyr.
    rewrite (list_lookup_fmap (fun t : R => (t - Dx * dxy) / inc_cos)), Hxc.
    reflexivity.
Qed.

(** ** Interpolation on the radial grid *)

Lemma searchsorted_spec (x : R) (l : list R) :
  forall k : nat,
    (k <= length l)%nat ->
    (forall i y, (i < k)%nat -> l !! i = Some y -> y < x) ->
    (forall y, l !! k = Some y -> x <= y) ->
    searchsorted l x = k.
Proof.
  induction l as [|a l IH]; intros k Hk Hlt Hge; cbn in *.
  - lia.
  - destruct k as [|k].
    + rewrite bool_decide_eq_false_2; [reflexivity|].
      specialize (Hge a eq_refl). lra.
    + rewrite bool_decide_eq_true_2 by (apply (Hlt O); [lia|reflexivity]).
      f_equal. apply IH.
      * lia.
      * intros i y Hi Hy. apply (Hlt (S i)); [lia|assumption].
      * intros y Hy. apply Hge. assumption.
Qed.

Lemma linspace_is_grid (Rmin dR : R) (n : nat) :
  exists g,
    linspace Rmin (Rmin + dR * IZR (Z.of_nat n - 1)) (Z.of_nat n) = Ok g /\
    is_grid g Rmin dR n.
Proof.
  destruct (linspace_grid Rmin dR (Z.of_nat n) ltac:(lia)) as (g & Hg & Hlen & Hv).
  exists g. split; [assumption|]. split; [lia|].
  intros i Hi. rewrite <- (Hv (Z.of_nat i)) by lia. now rewrite Nat2Z.id.
Qed.

Lemma is_grid_nth (g : list R) (Rmin dR : R) (n i : nat) :
  is_grid g Rmin dR n -> (i < n)%nat ->
  nth i g 0 = Rmin + IZR (Z.of_nat i) * dR.
Proof.
  intros [Hlen Hv] Hi. apply nth_lookup_Some. apply Hv, Hi.
Qed.

Lemma is_grid_searchsorted (g : list R) (Rmin dR : R) (n k : nat) (x : R) :
  0 < dR -> is_grid g Rmin dR n -> (k <= n)%nat ->
  (k = O \/ Rmin + IZR (Z.of_nat k - 1) * dR < x) ->
  (k = n \/ x <= Rmin + IZR (Z.of_nat k) * dR) ->
  searchsorted g x = k.
Proof.
  intros HdR [Hlen Hv] Hk Hlo Hhi. apply searchsorted_spec.
  - lia.
  - intros i y Hi Hy. rewrite Hv in Hy by lia. injection Hy as <-.
    destruct Hlo as [->|Hlo]; [lia|].
    assert (IZR (Z.of_nat i) <= IZR (Z.of_nat k - 1)) by (apply IZR_le; lia).
    nra.
  - intros y Hy. destruct Hhi as [->|Hhi].
    + apply lookup_lt_Some in Hy. lia.
    + apply lookup_lt_Some in Hy as Hlt. rewrite Hv in Hy by lia.
      injection Hy as <-. assumption.
Qed.

(** Extrapolation to [r = 0] takes the first segment of the grid. *)
Lemma interp1d_center (g I : list R) (Rmin dR : R) (n : nat) :
  0 < dR -> is_grid g Rmin dR n -> (2 <= n)%nat -> - dR <= Rmin ->
  interp1d_eval g I None 0 = center_value I Rmin dR.
Proof.
  intros HdR Hg Hn Hlow.
  assert (Nat.max (searchsorted g 0) 1 = 1%nat) as Hidx.
  { destruct (Rlt_dec Rmin 0) as [Hneg|Hpos].
    - rewrite (is_grid_searchsorted g Rmin dR n 1 0); try assumption; try lia.
      + right. change (Z.of_nat 1 - 1)%Z with 0%Z. lra.
      + right. change (Z.of_nat 1) with 1%Z. lra.
    - rewrite (is_grid_searchsorted g Rmin dR n 0 0); try assumption; try lia.
      + right. change (Z.of_nat 0) with 0%Z. lra. }
  unfold interp1d_eval, center_value. cbv zeta. rewrite Hidx.
  destruct Hg as [Hlen Hv]. rewrite Hlen.
  replace (Nat.min 1 (n - 1)) with 1%nat by lia.
  replace (1 - 1)%nat with O by lia.
  rewrite (is_grid_nth g Rmin dR n 0 (conj Hlen Hv)) by lia.
  rewrite (is_grid_nth g Rmin dR n 1 (conj Hlen Hv)) by lia.
  change (Z.of_nat 0) with 0%Z. change (Z.of_nat 1) with 1%Z.
  change (nth (1 - 1) I 0) with (nth 0 I 0). field. lra.
Qed.

Lemma Zfloor_bounds (x : R) : IZR (Zfloor x) <= x < IZR (Zfloor x) + 1.
Proof.
  pose proof (Zfloor_bound x). lra.
Qed.

(** ** The window of [g_sweep_prototype] *)

Lemma cos_zero_inclination : cos (0 / 180 * PI) <> 0.
Proof.
  replace (0 / 180 * PI) with 0 by lra. rewrite cos_0. lra.
Qed.

Lemma window_inside (I : list R) (Rmin dR dxy : R) (nrow ncol : Z) :
  (1 <= nrow <= ncol)%Z ->
  let rmax := sweep_rmax I Rmin dR dxy nrow in
  (rmax <= nrow ÷ 2 /\ 0 <= nrow ÷ 2 - rmax /\ nrow ÷ 2 - rmax + rmax * 2 <= nrow /\
   0 <= ncol ÷ 2 - rmax /\ ncol ÷ 2 - rmax + rmax * 2 <= ncol /\
   nrow ÷ 2 < nrow /\ ncol ÷ 2 < ncol /\ 0 <= nrow ÷ 2 /\ 0 <= ncol ÷ 2)%Z.
Proof.
  intros Hdim rmax.
  pose proof (quot2_facts nrow ltac:(lia)) as Hqr.
  pose proof (quot2_facts ncol ltac:(lia)) as Hqc.
  pose proof (quot2_mono nrow ncol ltac:(lia)) as Hqm.
  assert (rmax <= nrow ÷ 2)%Z as Hrmax by (unfold rmax, sweep_rmax; lia).
  lia.
Qed.


(** ** The precondition [Rmin <= dxy] *)

(** [sweep_ref] returns an image although [Rmin = 2 > dxy = 1]. *)
Lemma sweep_ref_accepts_Rmin_above_dxy :
  let Rmin := 2 in
  let dxy := 1 in
  dxy < Rmin /\
  exists image,
    sweep_ref [1; 1] Rmin 1 2 2 dxy 0 0 0 = Ok image /\ shape2 image 2 2.
Proof.
  cbv zeta. split; [lra|].
  destruct (sweep_ref_run [1; 1] 2 1 2 2 1 0 0 0)
    as (image & _ & _ & Hrun & Hshape & _).
  - cbn. lia.
  - lia.
  - lia.
  - exists image. split; [exact Hrun | exact Hshape].
Qed.

(** C9 (amended). Only [g_sweep_prototype] enforces [Rmin <= dxy]: with
    [Rmin > dxy] it raises the assertion error with its message before it
    computes anything.  [sweep_ref] has no such check: for a profile of at
    least two samples and a non-empty image it returns an image of the
    requested shape whatever [Rmin] and [dxy] are. *)
Theorem sweep_precondition_enforcement (I : list R) (Rmin dR : R)
    (nrow ncol : Z) (dxy inc Dx Dy : R) :
  dxy < Rmin ->
  g_sweep_prototype I Rmin dR nrow ncol dxy inc
  = Raise (AssertionError "Rmin must be smaller or equal than dxy") /\
  ((2 <= length I)%nat -> (1 <= nrow)%Z -> (1 <= ncol)%Z ->
   exists image,
     sweep_ref I Rmin dR nrow ncol dxy inc Dx Dy = Ok image /\
     shape2 image (Z.to_nat nrow) (Z.to_nat ncol)).
Proof.
  intros Hviol. split.
  - unfold g_sweep_prototype. rewrite bool_decide_eq_false_2 by lra. reflexivity.
  - intros Hn Hnrow Hncol.
    destruct (sweep_ref_run I Rmin dR nrow ncol dxy inc Dx Dy Hn Hnrow Hncol)
      as (image & _ & _ & Hrun & Hshape & _).
    exists image. split; assumption.
Qed.

Lemma sweep_precondition_enforcement_witness :
  g_sweep_prototype [1; 1] 2 1 2 2 1 0
  = Raise (AssertionError "Rmin must be smaller or equal than dxy") /\
  exists image,
    sweep_ref [1; 1] 2 1 2 2 1 0 0 0 = Ok image /\ shape2 image 2 2.
Proof.
  destruct (sweep_precondition_enforcement [1; 1] 2 1 2 2 1 0 0 0) as [Hg Href].
  - lra.
  - split; [exact Hg|]. apply Href.
    + cbn. lia.
    + lia.
    + lia.
Defined.

(** ** [interp1d] with [fill_value = 0] on the radial grid *)

Lemma interp1d_eval_segment (g I : list R) (Rmin dR : R) (n j : nat) (r : R) :
  0 < dR -> is_grid g Rmin dR n -> (1 <= j <= n - 1)%nat ->
  Nat.min (Nat.max (searchsorted g r) 1) (n - 1) = j ->
  Rmin <= r <= Rmin + IZR (Z.of_nat n - 1) * dR ->
  interp1d_eval g I (Some 0) r
  = nth (j - 1) I 0
    + (r - IZR (Z.of_nat j - 1) * dR - Rmin) * (nth j I 0 - nth (j - 1) I 0) / dR.
Proof.
  intros HdR Hg Hj Hidx Hr.
  unfold interp1d_eval. cbv zeta.
  destruct Hg as [Hlen Hv]. rewrite Hlen, Hidx.
  rewrite !(is_grid_nth g Rmin dR n) by (try split; try assumption; lia).
  change (Z.of_nat 0) with 0%Z.
  rewrite bool_decide_eq_false_2 by lra.
  replace (Z.of_nat (n - 1)) with (Z.of_nat n - 1)%Z by lia.
  rewrite bool_decide_eq_false_2 by lra.
  replace (Z.of_nat (j - 1)) with (Z.of_nat j - 1)%Z by lia.
  rewrite !minus_IZR. field. lra.
Qed.

Lemma bin_bounds (Rmin dR r : R) :
  0 < dR ->
  let k := Zfloor ((r - Rmin) / dR) in
  Rmin + IZR k * dR <= r < Rmin + (IZR k + 1) * dR.
Proof.
  intros HdR k. pose proof (Zfloor_bounds ((r - Rmin) / dR)) as [Hlo Hhi].
  fold k in Hlo, Hhi.
  assert ((r - Rmin) / dR * dR = r - Rmin) as Heq by (field; lra).
  split.
  - apply Rmult_le_compat_r with (r := dR) in Hlo; lra.
  - apply Rmult_lt_compat_r with (r := dR) in Hhi; lra.
Qed.

(** On the grid, [interp1d] with [fill_value = 0] is the truncated linear
    interpolant, except at the last grid point, where it returns the last
    sample. *)
Lemma interp1d_fill_grid (g I : list R) (Rmin dR : R) (n : nat) (r : R) :
  0 < dR -> is_grid g Rmin dR n -> length I = n -> (2 <= n)%nat -> Rmin <= r ->
  interp1d_eval g I (Some 0) r
  = if bool_decide (r = Rmin + IZR (Z.of_nat n - 1) * dR) then nth (n - 1) I 0
    else profile_interp I Rmin dR r.
Proof.
  intros HdR Hg HI Hn Hr.
  pose proof (bin_bounds Rmin dR r HdR) as Hbin. cbv zeta in Hbin.
  assert (0 <= Zfloor ((r - Rmin) / dR))%Z as Hk0.
  { apply Zfloor_lub. cbn. apply Rmult_le_pos; [lra|].
    apply Rlt_le, Rinv_0_lt_compat, HdR. }
  unfold profile_interp. cbv zeta. rewrite HI.
  set (k := Zfloor ((r - Rmin) / dR)) in *.
  destruct (Rlt_dec (Rmin + IZR (Z.of_nat n - 1) * dR) r) as [Hbeyond|Hin].
  - (* beyond the grid: both are 0 *)
    rewrite bool_decide_eq_false_2 by lra.
    assert (Z.of_nat n - 1 <= k)%Z as Hk.
    { apply Zfloor_lub. apply Rmult_le_reg_r with dR; [assumption|].
      unfold Rdiv. rewrite Rmult_assoc, Rinv_l by lra. lra. }
    rewrite bool_decide_eq_true_2 by lia.
    unfold interp1d_eval. cbv zeta. destruct Hg as [Hlen Hv]. rewrite Hlen.
    rewrite !(is_grid_nth g Rmin dR n) by (try split; try assumption; lia).
    change (Z.of_nat 0) with 0%Z.
    rewrite bool_decide_eq_false_2 by lra.
    replace (Z.of_nat (n - 1)) with (Z.of_nat n - 1)%Z by lia.
    rewrite bool_decide_eq_true_2 by lra. reflexivity.
  - case_bool_decide as Hlast.
    + (* the last grid point *)
      rewrite (interp1d_eval_segment g I Rmin dR n (n - 1)); try assumption; try lia.
      * replace (Z.of_nat (n - 1) - 1)%Z with (Z.of_nat n - 1 - 1)%Z by lia.
        replace (n - 1 - 1)%nat with (n - 2)%nat by lia.
        rewrite Hlast, !minus_IZR. field. lra.
      * rewrite (is_grid_searchsorted g Rmin dR n (n - 1) r); try assumption; try lia.
        -- right. replace (Z.of_nat (n - 1) - 1)%Z with (Z.of_nat n - 1 - 1)%Z by lia.
           rewrite Hlast, !minus_IZR. lra.
        -- right. replace (Z.of_nat (n - 1)) with (Z.of_nat n - 1)%Z by lia. lra.
      * lra.
    + (* inside the grid *)
      assert (k < Z.of_nat n - 1)%Z as Hk.
      { apply lt_IZR. apply Rmult_lt_reg_r with dR; [assumption|]. lra. }
      rewrite bool_decide_eq_false_2 by lia.
      destruct (Req_dec r (Rmin + IZR k * dR)) as [Hpt|Hnpt].
      * (* a grid point *)
        destruct (Z.eq_dec k 0%Z) as [Hkz|Hkz].
        -- rewrite (interp1d_eval_segment g I Rmin dR n 1); try assumption; try lia.
           ++ rewrite Hkz. reflexivity.
           ++ rewrite (is_grid_searchsorted g Rmin dR n 0 r); try assumption; try lia.
              right. rewrite Hkz in Hpt. change (Z.of_nat 0) with 0%Z. lra.
           ++ lra.
        -- rewrite (interp1d_eval_segment g I Rmin dR n (Z.to_nat k));
             try assumption; try lia.
           ++ replace (Z.of_nat (Z.to_nat k) - 1)%Z with (k - 1)%Z by lia.
              replace (Z.to_nat (k + 1)) with (S (Z.to_nat k)) by lia.
              rewrite Hpt, !minus_IZR. field. lra.
           ++ rewrite (is_grid_searchsorted g Rmin dR n (Z.to_nat k) r);
                try assumption; try lia.
              ** right. replace (Z.of_nat (Z.to_nat k) - 1)%Z with (k - 1)%Z by lia.
                 rewrite minus_IZR. lra.
              ** right. replace (Z.of_nat (Z.to_nat k)) with k by lia. lra.
           ++ lra.
      * (* strictly inside a bin *)
        rewrite (interp1d_eval_segment g I Rmin dR n (S (Z.to_nat k)));
          try assumption; try lia.
        -- replace (Z.of_nat (S (Z.to_nat k)) - 1)%Z with k by lia.
           replace (S (Z.to_nat k) - 1)%nat with (Z.to_nat k) by lia.
           replace (Z.to_nat (k + 1)) with (S (Z.to_nat k)) by lia.
           reflexivity.
        -- rewrite (is_grid_searchsorted g Rmin dR n (S (Z.to_nat k)) r);
             try assumption; try lia.
           ++ right. replace (Z.of_nat (S (Z.to_nat k)) - 1)%Z with k by lia. lra.
           ++ right. replace (Z.of_nat (S (Z.to_nat k))) with (k + 1)%Z by lia.
              rewrite plus_IZR. lra.
        -- lra.
Qed.

(** ** The image of [g_sweep_prototype] in image coordinates *)

Lemma sweep_rmax_pos (I : list R) (Rmin dR dxy : R) (nrow : Z) :
  0 < dxy -> 0 < dR -> - dR <= Rmin -> (2 <= length I)%nat -> (2 <= nrow)%Z ->
  (1 <= sweep_rmax I Rmin dR dxy nrow)%Z.
Proof.
  intros Hdxy HdR Hlow Hn Hnrow. unfold sweep_rmax.
  assert (1 <= nrow ÷ 2)%Z.
  { rewrite Z.quot_div_nonneg by lia. apply Z.div_le_lower_bound; lia. }
  assert (2 <= IZR (Z.of_nat (length I))) as HnR by (apply IZR_le; lia).
  assert (0 < (Rmin + IZR (Z.of_nat (length I)) * dR) / dxy) as Hpos.
  { apply Rdiv_lt_0_compat; [nra|assumption]. }
  pose proof (Zceil_bound ((Rmin + IZR (Z.of_nat (length I)) * dR) / dxy)) as [_ Hc].
  assert (0 < Zceil ((Rmin + IZR (Z.of_nat (length I)) * dR) / dxy))%Z
    by (apply lt_IZR; lra).
  lia.
Qed.

Lemma g_sweep_value_center_zero (I : list R) (dR dxy inc_cos : R) (rmax : Z) :
  0 < dR -> (2 <= length I)%nat ->
  g_sweep_value I 0 dR dxy inc_cos (Z.of_nat (length I)) rmax rmax rmax
  = Ok (nth 0 I 0).
Proof.
  intros HdR Hn. unfold g_sweep_value. cbv zeta. rewrite Z.sub_diag.
  assert ((0 * dxy / inc_cos) ^ 2 + (0 * dxy) ^ 2 = 0) as -> by (unfold Rdiv; ring).
  rewrite sqrt_0.
  replace ((0 - 0) / dR) with (IZR 0) by (unfold Rdiv; ring).
  rewrite ZfloorZ. rewrite bool_decide_eq_false_2 by lia.
  rewrite !getitem_nth by lia. rewrite !bind_Ok. f_equal.
  change (Z.to_nat 0) with O. unfold Rdiv. ring.
Qed.

Lemma g_sweep_prototype_pixels (I : list R) (Rmin dR : R) (nrow ncol : Z)
    (dxy inc : R) :
  Rmin <= dxy -> 0 < dxy -> 0 < dR -> - dR <= Rmin ->
  cos (inc / 180 * PI) <> 0 ->
  (2 <= length I)%nat -> (2 <= nrow <= ncol)%Z ->
  Rmin <= IZR (Z.of_nat (length I)) * dR ->
  let inc_cos := cos (inc / 180 * PI) in
  let rmax := sweep_rmax I Rmin dR dxy nrow in
  let ro := (nrow ÷ 2 - rmax)%Z in
  let co := (ncol ÷ 2 - rmax)%Z in
  exists image,
    g_sweep_prototype I Rmin dR nrow ncol dxy inc = Ok image /\
    shape2 image (Z.to_nat nrow) (Z.to_nat ncol) /\
    forall r c, (r < Z.to_nat nrow)%nat -> (c < Z.to_nat ncol)%nat ->
      pixel image r c =
        Some (if bool_decide (r = Z.to_nat (nrow ÷ 2) /\ c = Z.to_nat (ncol ÷ 2))
              then center_value I Rmin dR
              else if bool_decide (ro <= Z.of_nat r < ro + rmax * 2 /\
                                   co <= Z.of_nat c < co + rmax * 2)%Z
              then profile_interp I Rmin dR
                     (deprojected_radius (IZR (ncol ÷ 2 - Z.of_nat c) * dxy)
                                         (IZR (nrow ÷ 2 - Z.of_nat r) * dxy) inc_cos)
              else 0).
Proof.
  intros HRmin Hdxy HdR Hlow Hcos Hn Hdim Hwide inc_cos rmax ro co.
  destruct (g_sweep_prototype_run I Rmin dR nrow ncol dxy inc
              HRmin HdR Hcos Hn ltac:(lia) Hwide) as (image & Hrun & Hshape & Hpix).
  destruct (window_inside I Rmin dR dxy nrow ncol ltac:(lia))
    as (Hrmax & Hro & HroW & Hco & HcoW & Hcr & Hcc & Hcr0 & Hcc0).
  pose proof (sweep_rmax_pos I Rmin dR dxy nrow Hdxy HdR Hlow Hn ltac:(lia)) as Hpos.
  fold rmax in Hrmax, Hro, HroW, Hco, HcoW, Hpos.
  fold ro in Hro, HroW. fold co in Hco, HcoW.
  exists image. split; [assumption|]. split; [assumption|].
  intros r c Hr Hc. rewrite (Hpix r c Hr Hc). fold inc_cos rmax ro co. f_equal.
  destruct (decide (r = Z.to_nat (nrow ÷ 2) /\ c = Z.to_nat (ncol ÷ 2)))
    as [[-> ->]|Hcen].
  - rewrite (bool_decide_eq_true_2 (Z.to_nat (nrow ÷ 2) = Z.to_nat (nrow ÷ 2) /\ _))
      by tauto.
    destruct (Req_dec Rmin 0) as [->|HR0].
    2:{ rewrite bool_decide_eq_true_2 by tauto. reflexivity. }
    rewrite bool_decide_eq_false_2 by tauto.
    rewrite bool_decide_eq_true_2 by (unfold ro, co; lia).
    replace (Z.of_nat (Z.to_nat (nrow ÷ 2)) - ro)%Z with rmax by (unfold ro; lia).
    replace (Z.of_nat (Z.to_nat (ncol ÷ 2)) - co)%Z with rmax by (unfold co; lia).
    rewrite g_sweep_value_center_zero by assumption.
    unfold center_value, value_or_zero, Rdiv. ring.
  - rewrite (bool_decide_eq_false_2 (r = Z.to_nat (nrow ÷ 2) /\ _)) by tauto.
    rewrite bool_decide_eq_false_2 by tauto.
    case_bool_decide as Hwin; [|reflexivity].
    destruct (g_sweep_value_off_center I Rmin dR dxy inc_cos rmax
                (Z.of_nat r - ro) (Z.of_nat c - co) HdR HRmin Hcos (COS_bound _))
      as [_ Hval].
    { unfold ro, co. destruct (decide (r = Z.to_nat (nrow ÷ 2))) as [->|Hne].
      - right. intros Heq. apply Hcen. split; [reflexivity|]. lia.
      - left. lia. }
    rewrite Hval. cbn [value_or_zero].
    replace (rmax - (Z.of_nat c - co))%Z with (ncol ÷ 2 - Z.of_nat c)%Z
      by (unfold co; lia).
    replace (rmax - (Z.of_nat r - ro))%Z with (nrow ÷ 2 - Z.of_nat r)%Z
      by (unfold ro; lia).
    reflexivity.
Qed.

(** ** The two sweeps at the truncation radius *)

Lemma cos_zero_inclination_1 : cos (0 / 180 * PI) = 1.
Proof.
  replace (0 / 180 * PI) with 0 by lra. apply cos_0.
Qed.

(** C2. The two sweeps do not agree at the truncation radius.  For the
    profile [I = [2; 1]] on the grid [Rmin = 0], [dR = 1] and a 4 x 4 image
    with [dxy = 1], [inc = 0], [Dx = Dy = 0], the pixel in row 2, column 1
    has deprojected radius [1 = Rmin + (n - 1)*dR]; [g_sweep_prototype]
    stores [0] there, [sweep_ref] stores the last sample [I[1] = 1]. *)
Theorem sweeps_differ_at_truncation_radius :
  exists image_g image_ref,
    g_sweep_prototype [2; 1] 0 1 4 4 1 0 = Ok image_g /\
    sweep_ref [2; 1] 0 1 4 4 1 0 0 0 = Ok image_ref /\
    deprojected_radius (IZR (4 ÷ 2 - 1) * 1) (IZR (4 ÷ 2 - 2) * 1)
      (cos (0 / 180 * PI)) = 0 + (2 - 1) * 1 /\
    pixel image_g 2 1 = Some 0 /\
    pixel image_ref 2 1 = Some 1.
Proof.
  assert (deprojected_radius (IZR (4 ÷ 2 - 1) * 1) (IZR (4 ÷ 2 - 2) * 1)
            (cos (0 / 180 * PI)) = 1) as Hrad.
  { unfold deprojected_radius. rewrite cos_zero_inclination_1.
    change (4 ÷ 2 - 1)%Z with 1%Z. change (4 ÷ 2 - 2)%Z with 0%Z.
    replace ((1 * 1 / 1) ^ 2 + (0 * 1) ^ 2) with 1 by (unfold Rdiv; field).
    apply sqrt_1. }
  destruct (g_sweep_prototype_pixels [2; 1] 0 1 4 4 1 0)
    as (image_g & Hrun_g & _ & Hpix_g);
    [lra | lra | lra | lra | exact cos_zero_inclination | cbn; lia | lia
    | change (Z.of_nat (length [2; 1])) with 2%Z; lra | ].
  destruct (sweep_ref_run [2; 1] 0 1 4 4 1 0 0 0)
    as (image_ref & grid & Hgrid & Hrun_r & _ & Hpix_r); [cbn; lia | lia | lia | ].
  destruct (linspace_is_grid 0 1 (length [2; 1])) as (g & Hg & Hisgrid).
  rewrite Hgrid in Hg. injection Hg as <-.
  exists image_g, image_ref.
  split; [assumption|]. split; [assumption|]. split; [rewrite Hrad; lra|]. split.
  - rewrite Hpix_g by (cbn; lia).
    rewrite bool_decide_eq_false_2 by (cbn; lia).
    case_bool_decide; [|reflexivity].
    change (Z.of_nat 1) with 1%Z. change (Z.of_nat 2) with 2%Z. rewrite Hrad.
    unfold profile_interp. cbv zeta.
    replace ((1 - 0) / 1) with (IZR 1) by (unfold Rdiv; field).
    rewrite ZfloorZ. rewrite bool_decide_eq_true_2 by (cbn; lia). reflexivity.
  - rewrite Hpix_r by (cbn; lia).
    rewrite bool_decide_eq_false_2 by (cbn; lia).
    rewrite cos_zero_inclination_1.
    change (Z.of_nat 1) with 1%Z. change (Z.of_nat 2) with 2%Z.
    replace ((((4 / 2 - 1) * 1 - 0 * 1) / 1) ^ 2 + ((4 / 2 - 2) * 1 - 0 * 1) ^ 2)
      with 1 by (unfold Rdiv; field).
    rewrite sqrt_1.
    rewrite (interp1d_fill_grid grid [2; 1] 0 1 (length [2; 1]));
      [| lra | assumption | reflexivity | cbn; lia | lra].
    rewrite bool_decide_eq_true_2; [reflexivity|].
    change (1 = 0 + 1 * 1). lra.
Qed.

(** ** Exceptions raised inside the loops *)

Lemma for_each_raises {A St : Type} (body : A -> St -> result St) (x : A)
    (l : list A) :
  x ∈ l ->
  (forall s, body x s = Raise IndexError) ->
  (forall y s, only_IndexError (body y s)) ->
  forall s, for_each l body s = Raise IndexError.
Proof.
  intros Hin Hx Hall. induction l as [|a l IH]; intros s.
  - inversion Hin.
  - cbn. pose proof (Hall a s) as Ha.
    destruct (body a s) as [s'|e] eqn:Hbody.
    + rewrite bind_Ok. apply elem_of_cons in Hin as [->|Hin].
      * rewrite Hx in Hbody. discriminate.
      * apply IH, Hin.
    + cbn in Ha. subst e. reflexivity.
Qed.

Lemma for_each_only_IndexError {A St : Type} (body : A -> St -> result St)
    (l : list A) :
  (forall y s, only_IndexError (body y s)) ->
  forall s, only_IndexError (for_each l body s).
Proof.
  intros Hall. induction l as [|a l IH]; intros s; cbn; [exact Logic.I|].
  pose proof (Hall a s) as Ha. destruct (body a s) as [s'|e].
  - rewrite bind_Ok. apply IH.
  - exact Ha.
Qed.

Lemma getitem_only_IndexError {A : Type} (a : list A) (i : Z) :
  only_IndexError (getitem a i).
Proof.
  unfold getitem, norm_index. repeat case_bool_decide; cbn; try reflexivity;
    match goal with |- context [a !! ?k] => destruct (a !! k) end; cbn; auto.
Qed.

Lemma getitem_out {A : Type} (a : list A) (i : Z) :
  (i < - Z.of_nat (length a) \/ Z.of_nat (length a) <= i)%Z ->
  getitem a i = Raise IndexError.
Proof.
  intros H. unfold getitem. now rewrite norm_index_out by assumption.
Qed.

Lemma setitem_only_IndexError {A : Type} (a : list A) (i : Z) (v : A) :
  only_IndexError (setitem a i v).
Proof.
  unfold setitem, norm_index. repeat case_bool_decide; cbn; auto.
Qed.

Lemma bind_only_IndexError {A B : Type} (m : result A) (f : A -> result B) :
  only_IndexError m -> (forall a, only_IndexError (f a)) ->
  only_IndexError (a ← m; f a).
Proof.
  intros Hm Hf. destruct m as [a|e]; cbn in *; [apply Hf|assumption].
Qed.

Lemma setitem2_only_IndexError (f : list (list R)) (i j : Z) (v : R) :
  only_IndexError (setitem2 f i j v).
Proof.
  unfold setitem2. apply bind_only_IndexError; [apply getitem_only_IndexError|].
  intros row. apply bind_only_IndexError; [apply setitem_only_IndexError|].
  intros row'. apply setitem_only_IndexError.
Qed.

Lemma g_sweep_body_only_IndexError (I : list R) (Rmin dR dxy inc_cos : R)
    (nrad rmax ro co irow jcol : Z) (image : list (list R)) :
  only_IndexError
    (g_sweep_body I Rmin dR dxy inc_cos nrad rmax ro co irow jcol image).
Proof.
  unfold g_sweep_body. cbv zeta. case_bool_decide.
  - apply setitem2_only_IndexError.
  - apply bind_only_IndexError; [apply getitem_only_IndexError|]. intros a.
    apply bind_only_IndexError; [apply getitem_only_IndexError|]. intros b.
    apply setitem2_only_IndexError.
Qed.

(** With [Rmin > n*dR] the generic computation at the window centre reads
    [I[iR]] with [iR < -n]. *)
Lemma g_sweep_body_center_raises (I : list R) (Rmin dR dxy inc_cos : R)
    (rmax ro co : Z) (image : list (list R)) :
  0 < dR -> (1 <= length I)%nat -> IZR (Z.of_nat (length I)) * dR < Rmin ->
  g_sweep_body I Rmin dR dxy inc_cos (Z.of_nat (length I)) rmax ro co rmax rmax image
  = Raise IndexError.
Proof.
  intros HdR Hn Hbig. unfold g_sweep_body. cbv zeta. rewrite Z.sub_diag.
  assert ((0 * dxy / inc_cos) ^ 2 + (0 * dxy) ^ 2 = 0) as -> by (unfold Rdiv; ring).
  rewrite sqrt_0.
  set (iR := Zfloor ((0 - Rmin) / dR)).
  assert (iR < - Z.of_nat (length I))%Z as Hlow.
  { pose proof (Zfloor_bounds ((0 - Rmin) / dR)) as [Hlo _]. fold iR in Hlo.
    apply lt_IZR. rewrite opp_IZR.
    assert ((0 - Rmin) / dR < - IZR (Z.of_nat (length I))).
    { apply Rmult_lt_reg_r with dR; [assumption|].
      unfold Rdiv. rewrite Rmult_assoc, Rinv_l by lra. lra. }
    lra. }
  rewrite bool_decide_eq_false_2 by lia.
  rewrite (getitem_out I iR) by lia. reflexivity.
Qed.

(** * Further properties of the module *)

(** [g_sweep_prototype] does not return when [Rmin > n*dR]: the generic
    computation at the window centre indexes the profile below [-n] and
    raises [IndexError] before the centre pixel is overridden. *)
Lemma g_sweep_prototype_raises (I : list R) (Rmin dR : R) (nrow ncol : Z)
    (dxy inc : R) :
  Rmin <= dxy -> 0 < dxy -> 0 < dR -> cos (inc / 180 * PI) <> 0 ->
  (1 <= length I)%nat -> IZR (Z.of_nat (length I)) * dR < Rmin ->
  (2 <= nrow)%Z -> (0 <= ncol)%Z ->
  g_sweep_prototype I Rmin dR nrow ncol dxy inc = Raise IndexError.
Proof.
  intros HRmin Hdxy HdR Hcos Hn Hbig Hnrow Hncol.
  unfold g_sweep_prototype. rewrite bool_decide_eq_true_2 by assumption.
  unfold zeros2.
  rewrite (bool_decide_eq_false_2 (nrow < 0 \/ ncol < 0)%Z) by lia. rewrite bind_Ok.
  cbv zeta. fold (sweep_rmax I Rmin dR dxy nrow).
  set (rmax := sweep_rmax I Rmin dR dxy nrow).
  assert (1 <= rmax)%Z as Hpos.
  { unfold rmax, sweep_rmax.
    assert (1 <= nrow ÷ 2)%Z.
    { rewrite Z.quot_div_nonneg by lia. apply Z.div_le_lower_bound; lia. }
    assert (0 <= IZR (Z.of_nat (length I))) as HnR by (apply IZR_le; lia).
    assert (0 < (Rmin + IZR (Z.of_nat (length I)) * dR) / dxy) as Hq.
    { apply Rdiv_lt_0_compat; [nra|assumption]. }
    pose proof (Zceil_bound ((Rmin + IZR (Z.of_nat (length I)) * dR) / dxy)) as [_ Hc].
    assert (0 < Zceil ((Rmin + IZR (Z.of_nat (length I)) * dR) / dxy))%Z
      by (apply lt_IZR; lra).
    lia. }
  assert (rmax ∈ range (rmax * 2)) as Hin.
  { unfold range. apply elem_of_seqZ. lia. }
  rewrite (for_each_raises _ rmax); try assumption; [reflexivity| |].
  - intros image. apply (for_each_raises _ rmax); [assumption| |].
    + intros s. now apply g_sweep_body_center_raises.
    + intros y s. apply g_sweep_body_only_IndexError.
  - intros y s. apply for_each_only_IndexError.
    intros y' s'. apply g_sweep_body_only_IndexError.
Qed.


(** ** Agreement of the two sweeps *)






(** ** Shape and support of the swept images *)




(** [sweep_ref] returns an [nrow x ncol] image; away from the centre, pixel
    [(r, c)] is the [fill_value = 0] interpolant of the profile at the
    deprojected radius of the mesh point [((ncol/2 - c) - Dx, (nrow/2 - r) - Dy)]
    (in pixels): the offsets [Dx], [Dy] are counted in pixels. *)
Theorem sweep_ref_image (I : list R) (Rmin dR : R) (nrow ncol : Z)
    (dxy inc Dx Dy : R) :
  cos (inc / 180 * PI) <> 0 ->
  (2 <= length I)%nat -> (1 <= nrow)%Z -> (1 <= ncol)%Z ->
  let inc_cos := cos (inc / 180 * PI) in
  exists image gridrad,
    is_grid gridrad Rmin dR (length I) /\
    sweep_ref I Rmin dR nrow ncol dxy inc Dx Dy = Ok image /\
    shape2 image (Z.to_nat nrow) (Z.to_nat ncol) /\
    forall r c, (r < Z.to_nat nrow)%nat -> (c < Z.to_nat ncol)%nat ->
      ~ (r = Z.to_nat (nrow ÷ 2) /\ c = Z.to_nat (ncol ÷ 2)) ->
      pixel image r c =
        Some (interp1d_eval gridrad I (Some 0)
                (deprojected_radius
                   ((IZR ncol / 2 - IZR (Z.of_nat c) - Dx) * dxy)
                   ((IZR nrow / 2 - IZR (Z.of_nat r) - Dy) * dxy) inc_cos)).
Proof.
  intros Hcos Hn Hnrow Hncol inc_cos.
  destruct (sweep_ref_run I Rmin dR nrow ncol dxy inc Dx Dy Hn Hnrow Hncol)
    as (image & grid & Hgrid & Hrun & Hshape & Hpix).
  destruct (linspace_is_grid Rmin dR (length I)) as (g & Hg & Hisgrid).
  rewrite Hgrid in Hg. injection Hg as <-.
  exists image, grid. split; [assumption|]. split; [assumption|].
  split; [assumption|].
  intros r c Hr Hc Hcen. rewrite (Hpix r c Hr Hc).
  rewrite bool_decide_eq_false_2 by assumption. fold inc_cos.
  unfold deprojected_radius. do 3 f_equal. field. assumption.
Qed.

Lemma sweep_ref_image_witness :
  exists image gridrad,
    sweep_ref [1; 1] 0 1 2 2 1 0 (1 / 2) 0 = Ok image /\
    shape2 image 2 2 /\
    pixel image 0 0 =
      Some (interp1d_eval gridrad [1; 1] (Some 0)
              (deprojected_radius ((2 / 2 - 0 - 1 / 2) * 1) ((2 / 2 - 0 - 0) * 1)
                 (cos (0 / 180 * PI)))).
Proof.
  destruct (sweep_ref_image [1; 1] 0 1 2 2 1 0 (1 / 2) 0)
    as (image & grid & _ & Hrun & Hshape & Hpix).
  - exact cos_zero_inclination.
  - cbn. lia.
  - lia.
  - lia.
  - exists image, grid. split; [exact Hrun|]. split; [exact Hshape|].
    apply (Hpix 0%nat 0%nat).
    + cbn. lia.
    + cbn. lia.
    + change (Z.to_nat (2 ÷ 2)) with 1%nat. lia.
Defined.

(** [sweep_ref] divides by the image size: an image with no columns, or
    with columns but no rows, raises [ZeroDivisionError]. *)
Theorem sweep_ref_empty_image (I : list R) (Rmin dR : R) (nrow ncol : Z)
    (dxy inc Dx Dy : R) :
  (ncol = 0 \/ (1 <= ncol /\ nrow = 0))%Z ->
  sweep_ref I Rmin dR nrow ncol dxy inc Dx Dy = Raise ZeroDivisionError.
Proof.
  intros Hempty. unfold sweep_ref. cbv zeta.
  destruct (linspace_grid Rmin dR (Z.of_nat (length I)) ltac:(lia))
    as (grid & Hgrid & _).
  rewrite Hgrid, bind_Ok. unfold float_recip.
  destruct Hempty as [->|[Hncol ->]].
  - reflexivity.
  - rewrite (bool_decide_eq_false_2 (ncol = 0)%Z) by lia. rewrite bind_Ok.
    destruct (linspace_Ok 0.5 (- 0.5 + 1 / IZR ncol) ncol ltac:(lia))
      as (xl & Hxl & _).
    rewrite Hxl, bind_Ok. reflexivity.
Qed.

Lemma sweep_ref_empty_image_witness :
  sweep_ref [1; 1] 0 1 4 0 1 0 0 0 = Raise ZeroDivisionError.
Proof.
  apply sweep_ref_empty_image. left. reflexivity.
Defined.

(** ** Profiles shorter than [Rmin] *)

Lemma short_profile_rmax : sweep_rmax [3; 1] 1 (1 / 4) 1 4 = 2%Z.
Proof.
  unfold sweep_rmax. change (Z.of_nat (length [3; 1])) with 2%Z.
  rewrite (Zceil_eq 2); [reflexivity|]. cbn. lra.
Qed.

Lemma short_profile_bin : Zfloor ((0 - 1) / (1 / 4)) = (-4)%Z.
Proof.
  replace ((0 - 1) / (1 / 4)) with (IZR (-4)) by (cbn; field). apply ZfloorZ.
Qed.

(** C3. The per-pixel rule of [g_sweep_prototype] does not reach every
    non-centre pixel of the window.  For [I = [3; 1]], [Rmin = 1],
    [dR = 1/4] on a 4 x 4 image with [dxy = 1] and [inc = 0] the window is
    the whole image ([rmax = 2]).  At its centre the generic computation
    has [r = 0] and [iR = floor((0 - Rmin)/dR) = -4] and reads [I[-4]],
    which raises [IndexError]: the call returns no image, and the window
    pixels that follow the centre are never computed. *)
Theorem g_sweep_prototype_window_aborted :
  sweep_rmax [3; 1] 1 (1 / 4) 1 4 = 2%Z /\
  Zfloor ((0 - 1) / (1 / 4)) = (-4)%Z /\
  getitem [3; 1] (-4)%Z = Raise IndexError /\
  g_sweep_prototype [3; 1] 1 (1 / 4) 4 4 1 0 = Raise IndexError.
Proof.
  split; [exact short_profile_rmax|]. split; [exact short_profile_bin|]. split.
  - apply getitem_out. cbn. lia.
  - apply g_sweep_prototype_raises.
    + lra.
    + lra.
    + lra.
    + exact cos_zero_inclination.
    + cbn. lia.
    + change (Z.of_nat (length [3; 1])) with 2%Z. lra.
    + lia.
    + lia.
Qed.

(** C4. The centre override of [g_sweep_prototype] is not reached for every
    profile with [Rmin <> 0] and [Rmin <= dxy].  For [I = [3; 1]],
    [Rmin = 1], [dR = 1/4] on a 2 x 2 image with [dxy = 1] and [inc = 0],
    [sweep_ref] stores [I[0] + Rmin*(I[0] - I[1])/dR = 11] in the centre
    pixel [(1, 1)], while [g_sweep_prototype] raises [IndexError] in the
    generic computation of that pixel, before the override. *)
Theorem center_override_not_reached :
  3 + 1 * (3 - 1) / (1 / 4) = 11 /\
  g_sweep_prototype [3; 1] 1 (1 / 4) 2 2 1 0 = Raise IndexError /\
  exists image_ref,
    sweep_ref [3; 1] 1 (1 / 4) 2 2 1 0 0 0 = Ok image_ref /\
    pixel image_ref 1 1 = Some 11.
Proof.
  split; [field|]. split.
  - apply g_sweep_prototype_raises.
    + lra.
    + lra.
    + lra.
    + exact cos_zero_inclination.
    + cbn. lia.
    + change (Z.of_nat (length [3; 1])) with 2%Z. lra.
    + lia.
    + lia.
  - destruct (sweep_ref_run [3; 1] 1 (1 / 4) 2 2 1 0 0 0)
      as (image_ref & grid & Hgrid & Hrun & _ & Hpix); [cbn; lia | lia | lia |].
    destruct (linspace_is_grid 1 (1 / 4) (length [3; 1])) as (g & Hg & Hisgrid).
    rewrite Hgrid in Hg. injection Hg as <-.
    exists image_ref. split; [assumption|].
    rewrite (Hpix 1%nat 1%nat) by (cbn; lia).
    rewrite bool_decide_eq_true_2 by (split; reflexivity).
    rewrite (interp1d_center grid [3; 1] 1 (1 / 4) (length [3; 1]));
      [| lra | assumption | cbn; lia | lra].
    f_equal. unfold center_value.
    change (3 + 1 * (3 - 1) / (1 / 4) = 11). field.
Qed.

(** [g_sweep_prototype] does not return when the profile is shorter than
    [Rmin] ([Rmin > n*dR]): the generic computation at the window centre
    has [iR < -n], reads [I[iR]] and raises [IndexError] before the centre
    pixel is overridden. *)
Theorem g_sweep_prototype_IndexError (I : list R) (Rmin dR : R) (nrow ncol : Z)
    (dxy inc : R) :
  Rmin <= dxy -> 0 < dxy -> 0 < dR -> cos (inc / 180 * PI) <> 0 ->
  (1 <= length I)%nat -> IZR (Z.of_nat (length I)) * dR < Rmin ->
  (2 <= nrow)%Z -> (0 <= ncol)%Z ->
  g_sweep_prototype I Rmin dR nrow ncol dxy inc = Raise IndexError.
Proof. exact (g_sweep_prototype_raises I Rmin dR nrow ncol dxy inc). Qed.

Lemma g_sweep_prototype_IndexError_witness :
  g_sweep_prototype [1; 1] 1 (1 / 4) 2 2 1 0 = Raise IndexError.
Proof.
  apply g_sweep_prototype_IndexError.
  - lra.
  - lra.
  - lra.
  - exact cos_zero_inclination.
  - cbn. lia.
  - change (Z.of_nat (length [1; 1])) with 2%Z. lra.
  - lia.
  - lia.
Defined.

(** ** The window rule and the centre override, where the call returns *)

Lemma window_inside_fit (I : list R) (Rmin dR dxy : R) (nrow ncol : Z) :
  (1 <= nrow)%Z -> (1 <= ncol)%Z ->
  let rmax := sweep_rmax I Rmin dR dxy nrow in
  (rmax <= ncol ÷ 2)%Z ->
  (rmax <= nrow ÷ 2 /\ 0 <= nrow ÷ 2 - rmax /\ nrow ÷ 2 - rmax + rmax * 2 <= nrow /\
   0 <= ncol ÷ 2 - rmax /\ ncol ÷ 2 - rmax + rmax * 2 <= ncol /\
   nrow ÷ 2 < nrow /\ ncol ÷ 2 < ncol /\ 0 <= nrow ÷ 2 /\ 0 <= ncol ÷ 2)%Z.
Proof.
  intros Hnrow Hncol rmax Hfit.
  pose proof (quot2_facts nrow ltac:(lia)) as Hqr.
  pose proof (quot2_facts ncol ltac:(lia)) as Hqc.
  assert (rmax <= nrow ÷ 2)%Z as Hrmax by (unfold rmax, sweep_rmax; lia).
  lia.
Qed.

(** Where [g_sweep_prototype] returns, every pixel of its window other than
    the window centre [(rmax, rmax)] holds the value of the truncated linear
    interpolant at its deprojected radius: with [x = (rmax - jcol)*dxy],
    [y = (rmax - irow)*dxy], [r = sqrt((x/cos inc)^2 + y^2)] and
    [iR = floor((r - Rmin)/dR)] (never negative there), the pixel holds [0]
    when [iR >= n - 1] and [I[iR] + (r - iR*dR - Rmin)*(I[iR+1] - I[iR])/dR]
    otherwise.  The call returns when the window fits the image
    ([rmax <= ncol ÷ 2]) and [Rmin <= n*dR]. *)
Theorem g_sweep_prototype_window_rule (I : list R) (Rmin dR : R)
    (nrow ncol : Z) (dxy inc : R) :
  Rmin <= dxy -> dxy <> 0 -> 0 < dR -> cos (inc / 180 * PI) <> 0 ->
  (2 <= length I)%nat -> (1 <= nrow)%Z -> (1 <= ncol)%Z ->
  (sweep_rmax I Rmin dR dxy nrow <= ncol ÷ 2)%Z ->
  Rmin <= IZR (Z.of_nat (length I)) * dR ->
  let n := Z.of_nat (length I) in
  let inc_cos := cos (inc / 180 * PI) in
  let rmax := sweep_rmax I Rmin dR dxy nrow in
  let row_offset := (nrow ÷ 2 - rmax)%Z in
  let col_offset := (ncol ÷ 2 - rmax)%Z in
  exists image,
    g_sweep_prototype I Rmin dR nrow ncol dxy inc = Ok image /\
    forall irow jcol : Z,
      (0 <= irow < rmax * 2)%Z -> (0 <= jcol < rmax * 2)%Z ->
      (irow <> rmax \/ jcol <> rmax)%Z ->
      let x := IZR (rmax - jcol) * dxy in
      let y := IZR (rmax - irow) * dxy in
      let r := sqrt ((x / inc_cos) ^ 2 + y ^ 2) in
      let iR := Zfloor ((r - Rmin) / dR) in
      (0 <= iR)%Z /\
      pixel image (Z.to_nat (irow + row_offset)) (Z.to_nat (jcol + col_offset))
      = Some (if bool_decide (iR >= n - 1)%Z then 0
              else nth (Z.to_nat iR) I 0
                   + (r - IZR iR * dR - Rmin)
                     * (nth (Z.to_nat (iR + 1)) I 0 - nth (Z.to_nat iR) I 0) / dR).
Proof.
  intros HRmin Hdxy HdR Hcos Hn Hnrow Hncol Hfit Hwide n inc_cos rmax ro co.
  destruct (g_sweep_prototype_run_fit I Rmin dR nrow ncol dxy inc
              HRmin HdR Hcos Hn Hnrow Hncol Hfit Hwide)
    as (image & Hrun & _ & Hpix).
  destruct (window_inside_fit I Rmin dR dxy nrow ncol Hnrow Hncol Hfit)
    as (Hrmax & Hro & HroW & Hco & HcoW & _).
  fold rmax in Hrmax, Hro, HroW, Hco, HcoW. fold ro in Hro, HroW. fold co in Hco, HcoW.
  exists image. split; [assumption|].
  intros irow jcol Hir Hjc Hoff x y r iR.
  destruct (g_sweep_value_off_center I Rmin dR dxy inc_cos rmax irow jcol
              HdR HRmin Hcos (COS_bound _) Hoff) as [Hge Hval].
  split.
  - apply Zfloor_lub. cbn. apply Rmult_le_pos; [|apply Rlt_le, Rinv_0_lt_compat, HdR].
    unfold deprojected_radius in Hge. fold x y r in Hge. lra.
  - rewrite Hpix by lia. fold rmax ro co inc_cos.
    rewrite bool_decide_eq_false_2 by (fold ro co; lia).
    rewrite bool_decide_eq_true_2 by lia.
    replace (Z.of_nat (Z.to_nat (irow + ro)) - ro)%Z with irow by lia.
    replace (Z.of_nat (Z.to_nat (jcol + co)) - co)%Z with jcol by lia.
    rewrite Hval. reflexivity.
Qed.

Lemma sweep_rmax_example : sweep_rmax [3; 1] 0 2 1 4 = 2%Z.
Proof.
  unfold sweep_rmax. change (Z.of_nat (length [3; 1])) with 2%Z.
  rewrite (Zceil_eq 4); [reflexivity|]. cbn. lra.
Qed.

(** On a 4 x 4 image the pixel left of the centre is at radius [1], inside
    the first bin of the profile [[3; 1]] with [dR = 2]. *)
Lemma g_sweep_prototype_window_rule_witness :
  exists image,
    g_sweep_prototype [3; 1] 0 2 4 4 1 0 = Ok image /\
    pixel image 2 1 = Some 2.
Proof.
  destruct (g_sweep_prototype_window_rule [3; 1] 0 2 4 4 1 0)
    as (image & Hrun & Hpix).
  - lra.
  - lra.
  - lra.
  - exact cos_zero_inclination.
  - cbn. lia.
  - lia.
  - lia.
  - rewrite sweep_rmax_example. change (2 <= 2)%Z. lia.
  - change (Z.of_nat (length [3; 1])) with 2%Z. lra.
  - exists image. split; [exact Hrun|].
    cbv zeta in Hpix. rewrite sweep_rmax_example in Hpix.
    destruct (Hpix 2%Z 1%Z) as [_ Hval]; [lia | lia | right; lia |].
    rewrite cos_zero_inclination_1 in Hval.
    change (2 - 1)%Z with 1%Z in Hval. change (2 - 2)%Z with 0%Z in Hval.
    replace ((1 * 1 / 1) ^ 2 + (0 * 1) ^ 2) with 1 in Hval by (unfold Rdiv; field).
    rewrite sqrt_1 in Hval.
    rewrite (Zfloor_unit ((1 - 0) / 2)) in Hval by lra.
    rewrite bool_decide_eq_false_2 in Hval by (cbn; lia).
    change (Z.to_nat (2 + (4 ÷ 2 - 2))) with 2%nat in Hval.
    change (Z.to_nat (1 + (4 ÷ 2 - 2))) with 1%nat in Hval.
    rewrite Hval. f_equal.
    change (3 + (1 - 0 * 2 - 0) * (1 - 3) / 2 = 2). field.
Defined.
(** Where both sweeps return and [Rmin <> 0], both store
    [I[0] + Rmin*(I[0] - I[1])/dR] in the centre pixel
    [(nrow ÷ 2, ncol ÷ 2)], whatever the generic computation produced
    there: [g_sweep_prototype] by the closed formula, [sweep_ref] by the
    linear extrapolation of the profile to [r = 0], which is the same number
    in exact arithmetic. *)
Theorem center_pixel_override (I : list R) (Rmin dR : R) (nrow ncol : Z)
    (dxy inc Dx Dy : R) :
  Rmin <> 0 -> Rmin <= dxy -> dxy <> 0 -> 0 < dR -> - dR <= Rmin ->
  cos (inc / 180 * PI) <> 0 ->
  (2 <= length I)%nat -> (1 <= nrow)%Z -> (1 <= ncol)%Z ->
  (sweep_rmax I Rmin dR dxy nrow <= ncol ÷ 2)%Z ->
  Rmin <= IZR (Z.of_nat (length I)) * dR ->
  exists image_g image_ref,
    g_sweep_prototype I Rmin dR nrow ncol dxy inc = Ok image_g /\
    sweep_ref I Rmin dR nrow ncol dxy inc Dx Dy = Ok image_ref /\
    pixel image_g (Z.to_nat (nrow ÷ 2)) (Z.to_nat (ncol ÷ 2))
    = Some (nth 0 I 0 + Rmin * (nth 0 I 0 - nth 1 I 0) / dR) /\
    pixel image_ref (Z.to_nat (nrow ÷ 2)) (Z.to_nat (ncol ÷ 2))
    = Some (nth 0 I 0 + Rmin * (nth 0 I 0 - nth 1 I 0) / dR).
Proof.
  intros HR0 HRmin Hdxy HdR Hlow Hcos Hn Hnrow Hncol Hfit Hwide.
  destruct (g_sweep_prototype_run_fit I Rmin dR nrow ncol dxy inc
              HRmin HdR Hcos Hn Hnrow Hncol Hfit Hwide)
    as (image_g & Hrun_g & _ & Hpix_g).
  destruct (sweep_ref_run I Rmin dR nrow ncol dxy inc Dx Dy Hn Hnrow Hncol)
    as (image_ref & grid & Hgrid & Hrun_r & _ & Hpix_r).
  destruct (linspace_is_grid Rmin dR (length I)) as (g & Hg & Hisgrid).
  rewrite Hgrid in Hg. injection Hg as <-.
  destruct (window_inside_fit I Rmin dR dxy nrow ncol Hnrow Hncol Hfit)
    as (_ & _ & _ & _ & _ & Hcr & Hcc & Hcr0 & Hcc0).
  exists image_g, image_ref. split; [assumption|]. split; [assumption|]. split.
  - rewrite Hpix_g by lia. rewrite bool_decide_eq_true_2 by tauto. reflexivity.
  - rewrite Hpix_r by lia. rewrite bool_decide_eq_true_2 by tauto.
    rewrite (interp1d_center grid I Rmin dR (length I)) by assumption.
    reflexivity.
Qed.

Lemma center_pixel_override_witness :
  exists image_g image_ref,
    g_sweep_prototype [3; 1] 1 1 2 2 1 0 = Ok image_g /\
    sweep_ref [3; 1] 1 1 2 2 1 0 0 0 = Ok image_ref /\
    pixel image_g 1 1 = Some (3 + 1 * (3 - 1) / 1) /\
    pixel image_ref 1 1 = Some (3 + 1 * (3 - 1) / 1).
Proof.
  apply (center_pixel_override [3; 1] 1 1 2 2 1 0 0 0).
  - lra.
  - lra.
  - lra.
  - lra.
  - lra.
  - exact cos_zero_inclination.
  - cbn. lia.
  - lia.
  - lia.
  - unfold sweep_rmax. apply Z.le_min_r.
  - change (Z.of_nat (length [3; 1])) with 2%Z. lra.
Defined.

(** ** The coordinate mappers *)

(** [uv_idx] is an affine map: it keeps the lengths, and for [du <> 0]
    mapping the indices back with [(p - half_size)*du] restores the
    coordinates. *)
Theorem uv_idx_inverse (udat vdat : list R) (du half_size : R) :
  du <> 0 ->
  let back := fun p : R => (p - half_size) * du in
  length (uv_idx udat vdat du half_size).1 = length udat /\
  length (uv_idx udat vdat du half_size).2 = length vdat /\
  back <$> (uv_idx udat vdat du half_size).1 = udat /\
  back <$> (uv_idx udat vdat du half_size).2 = vdat.
Proof.
  intros Hdu back. unfold uv_idx. cbn [fst snd].
  assert (forall l : list R,
            back <$> ((fun u : R => half_size + u / du) <$> l) = l) as Hback.
  { intros l. rewrite <- list_fmap_compose. rewrite <- (list_fmap_id l) at 2.
    apply list_fmap_ext. intros i x _. unfold back. cbn. field. assumption. }
  rewrite !length_fmap, !Hback. auto.
Qed.

Lemma uv_idx_inverse_witness :
  (fun p : R => (p - 8) * 2) <$> (uv_idx [4; -6] [2; 0] 2 8).1 = [4; -6].
Proof.
  apply (uv_idx_inverse [4; -6] [2; 0] 2 8). lra.
Defined.


(** With [du > 0] the R2C mapper never produces a negative [pixel_u]. *)
Theorem uv_idx_r2c_pixel_u_nonneg (udat vdat : list R) (du half_size : R) :
  0 < du -> length udat = length vdat ->
  exists indu indv,
    uv_idx_r2c udat vdat du half_size = Ok (indu, indv) /\
    Forall (fun p => 0 <= p) indu.
Proof.
  intros Hdu Hlen.
  destruct (uv_idx_r2c_run udat vdat du half_size Hlen)
    as (indu & indv & Hrun & Hlu & _ & Hv).
  exists indu, indv. split; [assumption|].
  apply Forall_lookup. intros i p Hp.
  assert (i < length udat)%nat as Hi by (apply lookup_lt_Some in Hp; lia).
  destruct (lookup_lt_is_Some_2 udat i Hi) as [u Hu].
  destruct (lookup_lt_is_Some_2 vdat i ltac:(lia)) as [v Hvi].
  destruct (Hv i u v Hu Hvi) as [Hiu _]. rewrite Hiu in Hp. injection Hp as <-.
  apply Rmult_le_pos; [apply Rabs_pos|]. apply Rlt_le, Rinv_0_lt_compat, Hdu.
Qed.

Lemma uv_idx_r2c_pixel_u_nonneg_witness :
  exists indu indv,
    uv_idx_r2c [-3; 2] [1; 1] 1 4 = Ok (indu, indv) /\
    Forall (fun p => 0 <= p) indu.
Proof.
  apply uv_idx_r2c_pixel_u_nonneg; [lra|reflexivity].
Defined.

Lemma mask_assign_none (f : R -> bool) (u : list R) :
  Forall (fun x => f x = false) u ->
  forall a vals, mask_assign (f <$> u) a vals = a.
Proof.
  induction 1 as [|x u Hx _ IH]; intros a vals; [now destruct a|].
  destruct a as [|v a]; [reflexivity|]. cbn. rewrite Hx. now rewrite IH.
Qed.

(** On samples of the right half-plane ([u >= 0]) nothing is folded:
    [pixel_v] is that of the C2C mapper [uv_idx], and [pixel_u] is the C2C
    index without the [half_size] offset. *)
Theorem uv_idx_r2c_right_half_plane (udat vdat : list R) (du half_size : R) :
  Forall (fun u => 0 <= u) udat -> length udat = length vdat ->
  uv_idx_r2c udat vdat du half_size
  = Ok ((fun u => u / du) <$> udat, (uv_idx udat vdat du half_size).2).
Proof.
  intros Hpos Hlen. unfold uv_idx_r2c, uv_idx. cbn [snd].
  rewrite bool_decide_eq_false_2 by (rewrite length_fmap; intros H; apply H, Hlen).
  rewrite mask_assign_none.
  - do 2 f_equal. apply list_fmap_ext. intros i u Hu.
    rewrite Forall_lookup in Hpos. specialize (Hpos i u Hu). cbn.
    now rewrite Rabs_pos_eq.
  - eapply Forall_impl; [exact Hpos|]. intros u Hu. cbn in *.
    apply bool_decide_eq_false_2. lra.
Qed.

Lemma uv_idx_r2c_right_half_plane_witness :
  uv_idx_r2c [0; 2] [1; -1] 1 4
  = Ok ((fun u => u / 1) <$> [0; 2], (uv_idx [0; 2] [1; -1] 1 4).2).
Proof.
  apply uv_idx_r2c_right_half_plane.
  - repeat constructor; lra.
  - reflexivity.
Defined.

(** ** [pixel_coordinates] *)

(** [pixel_coordinates] returns [nx] coordinates, pixel [i] at
    [(i - nx/2)*maxuv/nx]; for an even [nx] the pixel [nx/2] is at the
    origin. *)
Theorem pixel_coordinates_centers (maxuv : R) (nx : Z) :
  (1 <= nx)%Z ->
  exists l,
    pixel_coordinates maxuv nx = Ok l /\
    length l = Z.to_nat nx /\
    (forall i, (0 <= i < nx)%Z ->
       l !! Z.to_nat i = Some ((IZR i - IZR nx / 2) * maxuv / IZR nx)) /\
    (Z.even nx = true -> l !! Z.to_nat (nx / 2) = Some 0).
Proof.
  intros Hnx. unfold pixel_coordinates.
  destruct (linspace_Ok 0 (IZR (nx - 1)) nx ltac:(lia)) as (l0 & Hl0 & Hlen & Hv).
  rewrite Hl0, bind_Ok. eexists. split; [reflexivity|].
  split; [now rewrite length_fmap|].
  assert (IZR nx <> 0) as Hnx0 by (apply not_0_IZR; lia).
  assert (forall i, (0 <= i < nx)%Z ->
     ((fun t => (t - IZR nx / 2) * maxuv / IZR nx) <$> l0) !! Z.to_nat i
     = Some ((IZR i - IZR nx / 2) * maxuv / IZR nx)) as Hform.
  { intros i Hi. rewrite list_lookup_fmap, (Hv i Hi).
    cbv [fmap option_fmap option_map]. do 4 f_equal.
    case_bool_decide as Hlast.
    - destruct Hlast as [_ ->]. reflexivity.
    - destruct (Z.eq_dec nx 1%Z) as [->|Hn1].
      + replace i with 0%Z by lia. cbn. lra.
      + assert (IZR (nx - 1) <> 0) by (apply not_0_IZR; lia). field. assumption. }
  split; [exact Hform|].
  intros Heven. apply Z.even_spec in Heven as [k ->].
  rewrite Hform.
  - f_equal. replace (2 * k / 2)%Z with k by (rewrite Z.mul_comm, Z.div_mul; lia).
    rewrite mult_IZR. field. rewrite mult_IZR in Hnx0. lra.
  - split; [apply Z.div_pos; lia|]. apply Z.div_lt; lia.
Qed.

Lemma pixel_coordinates_centers_witness :
  exists l, pixel_coordinates 8 4 = Ok l /\ l !! 2%nat = Some 0.
Proof.
  destruct (pixel_coordinates_centers 8 4) as (l & Hrun & _ & _ & Hc); [lia|].
  exists l. split; [exact Hrun|]. apply Hc. reflexivity.
Defined.


(** ** Further properties of the phase shifts *)

(** The grid form divides by the wavelength and by the grid size: a zero
    wavelength and an empty grid both raise [ZeroDivisionError]. *)
Theorem Fourier_shift_static_division_errors :
  (forall (ft : list (list complex)) (x0 y0 maxuv : R),
     Fourier_shift_static ft x0 y0 0 maxuv = Raise ZeroDivisionError) /\
  (forall x0 y0 wle maxuv : R,
     Fourier_shift_static [] x0 y0 wle maxuv = Raise ZeroDivisionError).
Proof.
  split.
  - intros ft x0 y0 maxuv. unfold Fourier_shift_static.
    now rewrite bool_decide_eq_true_2.
  - intros x0 y0 wle maxuv. unfold Fourier_shift_static.
    case_bool_decide; reflexivity.
Qed.

Lemma Cmul_phase_zero (z : complex) (t : R) :
  t = 0 -> Cmul z (Cadd (Cofreal (cos t)) (Cmul Ci (Cofreal (sin t)))) = z.
Proof.
  intros ->. destruct z as [a b]. unfold Cmul, Cadd, Cofreal, Ci. cbn.
  rewrite cos_0, sin_0. f_equal; ring.
Qed.

Lemma Cmul_phase_add (z : complex) (t1 t2 t : R) :
  t = t1 + t2 ->
  Cmul (Cmul z (Cadd (Cofreal (cos t1)) (Cmul Ci (Cofreal (sin t1)))))
       (Cadd (Cofreal (cos t2)) (Cmul Ci (Cofreal (sin t2))))
  = Cmul z (Cadd (Cofreal (cos t)) (Cmul Ci (Cofreal (sin t)))).
Proof.
  intros ->. destruct z as [a b]. unfold Cmul, Cadd, Cofreal, Ci. cbn.
  rewrite cos_plus, sin_plus. f_equal; ring.
Qed.

Lemma Cmul_phase_modulus (z : complex) (t : R) :
  let z' := Cmul z (Cadd (Cofreal (cos t)) (Cmul Ci (Cofreal (sin t)))) in
  re z' * re z' + im z' * im z' = re z * re z + im z * im z.
Proof.
  destruct z as [a b]. unfold Cmul, Cadd, Cofreal, Ci. cbn.
  transitivity ((a * a + b * b) * (cos t * cos t + sin t * sin t)); [ring|].
  rewrite cos2_sin2. ring.
Qed.

(** The point form with a zero shift returns the visibilities unchanged. *)
Theorem Fourier_shift_array_zero (u v : list R) (fint : list complex) :
  length u = length v -> length fint = length u ->
  Fourier_shift_array u v fint 0 0 = Ok fint.
Proof.
  intros Hl1 Hl2. rewrite Fourier_shift_array_same by assumption. f_equal.
  revert u v Hl1 Hl2.
  induction fint as [|z fint IH]; intros [|a u] [|b v] Hl1 Hl2; try discriminate.
  - reflexivity.
  - cbn [zip_with]. f_equal.
    + apply Cmul_phase_zero. ring.
    + apply IH; cbn in *; lia.
Qed.

Lemma Fourier_shift_array_zero_witness :
  Fourier_shift_array [1; 2] [3; 4] [Cplx 1 2; Cplx 3 4] 0 0
  = Ok [Cplx 1 2; Cplx 3 4].
Proof.
  apply Fourier_shift_array_zero; reflexivity.
Defined.

(** Two point-form shifts in a row are the shift by the sum. *)
Theorem Fourier_shift_array_compose (u v : list R) (fint : list complex)
    (x0 y0 x1 y1 : R) :
  length u = length v -> length fint = length u ->
  exists shifted,
    Fourier_shift_array u v fint x0 y0 = Ok shifted /\
    Fourier_shift_array u v shifted x1 y1
    = Fourier_shift_array u v fint (x0 + x1) (y0 + y1).
Proof.
  intros Hl1 Hl2. rewrite (Fourier_shift_array_same u v fint x0 y0 Hl1 Hl2).
  eexists. split; [reflexivity|].
  rewrite Fourier_shift_array_same;
    [|assumption|rewrite !length_zip_with; lia].
  rewrite (Fourier_shift_array_same u v fint (x0 + x1) (y0 + y1) Hl1 Hl2).
  f_equal. revert u v Hl1 Hl2.
  induction fint as [|z fint IH]; intros [|a u] [|b v] Hl1 Hl2; try discriminate.
  - reflexivity.
  - cbn [zip_with]. f_equal.
    + apply Cmul_phase_add. ring.
    + apply IH; cbn in *; lia.
Qed.

Lemma Fourier_shift_array_compose_witness :
  exists shifted,
    Fourier_shift_array [1; 2] [3; 4] [Cplx 1 2; Cplx 3 4] 5 6 = Ok shifted /\
    Fourier_shift_array [1; 2] [3; 4] shifted 7 8
    = Fourier_shift_array [1; 2] [3; 4] [Cplx 1 2; Cplx 3 4] (5 + 7) (6 + 8).
Proof.
  apply Fourier_shift_array_compose; reflexivity.
Defined.

(** A point-form shift is a rotation: it keeps the squared modulus of
    every visibility, and the number of visibilities. *)
Theorem Fourier_shift_array_modulus (u v : list R) (fint : list complex)
    (x0 y0 : R) :
  length u = length v -> length fint = length u ->
  exists shifted,
    Fourier_shift_array u v fint x0 y0 = Ok shifted /\
    length shifted = length fint /\
    forall i z z', fint !! i = Some z -> shifted !! i = Some z' ->
      re z' * re z' + im z' * im z' = re z * re z + im z * im z.
Proof.
  intros Hl1 Hl2. rewrite (Fourier_shift_array_same u v fint x0 y0 Hl1 Hl2).
  eexists. split; [reflexivity|]. split.
  - rewrite !length_zip_with. lia.
  - intros i z z' Hz Hz'.
    apply lookup_zip_with_Some in Hz' as (z0 & t & -> & Hz0 & _).
    rewrite Hz in Hz0. injection Hz0 as <-. apply Cmul_phase_modulus.
Qed.

Lemma Fourier_shift_array_modulus_witness :
  exists shifted,
    Fourier_shift_array [1; 2] [3; 4] [Cplx 1 2; Cplx 3 4] 5 6 = Ok shifted /\
    length shifted = 2%nat.
Proof.
  destruct (Fourier_shift_array_modulus [1; 2] [3; 4] [Cplx 1 2; Cplx 3 4] 5 6)
    as (shifted & Hrun & Hlen & _); [reflexivity|reflexivity|].
  exists shifted. split; [exact Hrun | exact Hlen].
Defined.

(** ** Further properties of [radial_profile] *)





(** ** Further properties of [int_bilin_MT] *)

Lemma getitem2_only_IndexError (f : list (list R)) (i j : Z) :
  only_IndexError (getitem2 f i j).
Proof.
  unfold getitem2. apply bind_only_IndexError; [apply getitem_only_IndexError|].
  intros row. apply getitem_only_IndexError.
Qed.

Lemma int_bilin_body_only_IndexError (f : list (list R)) (x y : list R)
    (i : Z) (fint : list R) :
  only_IndexError (int_bilin_body f x y i fint).
Proof.
  unfold int_bilin_body.
  repeat first
    [ apply getitem_only_IndexError
    | apply getitem2_only_IndexError
    | apply setitem_only_IndexError
    | apply bind_only_IndexError; [|intros ?] ].
Qed.

(** [int_bilin_MT] loops over [len(x)]: a shorter [y] raises [IndexError]. *)
Theorem int_bilin_MT_short_y (f : list (list R)) (x y : list R) :
  (length y < length x)%nat -> int_bilin_MT f x y = Raise IndexError.
Proof.
  intros Hlen. unfold int_bilin_MT, zeros.
  rewrite bool_decide_eq_false_2 by lia. rewrite bind_Ok.
  apply (for_each_raises _ (Z.of_nat (length y))).
  - unfold range. apply elem_of_seqZ. lia.
  - intros fint. unfold int_bilin_body.
    rewrite (getitem_out y) by lia. reflexivity.
  - intros i fint. apply int_bilin_body_only_IndexError.
Qed.

Lemma int_bilin_MT_short_y_witness :
  int_bilin_MT [[1; 2]; [3; 4]] [0; 0] [0] = Raise IndexError.
Proof.
  apply int_bilin_MT_short_y. cbn. lia.
Defined.

Lemma getitem_Ok_elem {A : Type} (a : list A) (i : Z) (v : A) :
  getitem a i = Ok v -> v ∈ a.
Proof.
  unfold getitem. intros H. apply bind_Ok_inv in H as (k & _ & Hk).
  destruct (a !! k) as [w|] eqn:Hw; [|discriminate].
  injection Hk as <-. eapply list_elem_of_lookup_2, Hw.
Qed.

Lemma getitem_Ok_range {A : Type} (a : list A) (i : Z) (v : A) :
  getitem a i = Ok v -> (- Z.of_nat (length a) <= i < Z.of_nat (length a))%Z.
Proof.
  intros H.
  destruct (decide (- Z.of_nat (length a) <= i < Z.of_nat (length a))%Z)
    as [Hin|Hout]; [assumption|].
  rewrite getitem_out in H by lia. discriminate.
Qed.

Lemma getitem2_out (f : list (list R)) (nrow ncol : nat) (i j : Z) :
  shape2 f nrow ncol ->
  (Z.of_nat nrow <= i \/ Z.of_nat ncol <= j)%Z ->
  getitem2 f i j = Raise IndexError.
Proof.
  intros [Hlen Hrows] Hout. unfold getitem2.
  pose proof (getitem_only_IndexError f i) as Honly.
  destruct (getitem f i) as [row|e] eqn:Hrow.
  - rewrite bind_Ok.
    pose proof (getitem_Ok_range f i row Hrow) as Hi.
    apply getitem_Ok_elem in Hrow.
    rewrite Forall_forall in Hrows. specialize (Hrows row Hrow).
    apply getitem_out. lia.
  - cbn in Honly. subst e. reflexivity.
Qed.

(** A sample whose [floor x + 1] or [floor y + 1] is beyond the image makes
    the whole call raise [IndexError]: nothing is returned. *)
Theorem int_bilin_MT_out_of_bounds (f : list (list R)) (nrow ncol : nat)
    (x y : list R) (i : nat) (xi yi : R) :
  shape2 f nrow ncol ->
  x !! i = Some xi -> y !! i = Some yi ->
  (Z.of_nat ncol <= Zfloor xi + 1 \/ Z.of_nat nrow <= Zfloor yi + 1)%Z ->
  int_bilin_MT f x y = Raise IndexError.
Proof.
  intros Hf Hx Hy Hout. unfold int_bilin_MT, zeros.
  rewrite bool_decide_eq_false_2 by lia. rewrite bind_Ok.
  assert (i < length x)%nat as Hi by (eapply lookup_lt_Some, Hx).
  apply (for_each_raises _ (Z.of_nat i)).
  - unfold range. apply elem_of_seqZ. lia.
  - intros fint. unfold int_bilin_body.
    rewrite (getitem_nonneg y (Z.of_nat i) yi) by (rewrite ?Nat2Z.id; first [lia|assumption]).
    rewrite bind_Ok.
    rewrite (getitem_nonneg x (Z.of_nat i) xi) by (rewrite ?Nat2Z.id; first [lia|assumption]).
    rewrite bind_Ok. cbv zeta.
    pose proof (getitem2_only_IndexError f (Zfloor yi) (Zfloor xi)) as H0.
    destruct (getitem2 f (Zfloor yi) (Zfloor xi)) as [y0|e];
      [rewrite bind_Ok | cbn in H0; subst e; reflexivity].
    pose proof (getitem2_only_IndexError f (Zfloor yi + 1) (Zfloor xi)) as H1.
    destruct (getitem2 f (Zfloor yi + 1) (Zfloor xi)) as [y1|e];
      [rewrite bind_Ok | cbn in H1; subst e; reflexivity].
    rewrite (getitem2_out f nrow ncol (Zfloor yi + 1) (Zfloor xi + 1) Hf) by lia.
    reflexivity.
  - intros k fint. apply int_bilin_body_only_IndexError.
Qed.

Lemma int_bilin_MT_out_of_bounds_witness :
  int_bilin_MT [[1; 2]; [3; 4]] [1 / 2; IZR 1] [1 / 2; 1 / 2] = Raise IndexError.
Proof.
  apply (int_bilin_MT_out_of_bounds [[1; 2]; [3; 4]] 2 2 _ _ 1 (IZR 1) (1 / 2)).
  - split; [reflexivity|]. repeat constructor.
  - reflexivity.
  - reflexivity.
  - left. rewrite ZfloorZ. cbn. lia.
Defined.

(** Interpolating a constant image gives that constant at every sample. *)
Theorem int_bilin_MT_constant (f : list (list R)) (nrow ncol : nat)
    (x y : list R) (c : R) :
  shape2 f nrow ncol ->
  Forall (Forall (fun v => v = c)) f ->
  length x = length y ->
  (forall i xi yi, x !! i = Some xi -> y !! i = Some yi ->
     in_extent nrow ncol xi yi) ->
  exists fint,
    int_bilin_MT f x y = Ok fint /\
    length fint = length x /\
    Forall (fun v => v = c) fint.
Proof.
  intros Hf Hc Hlen Hext.
  destruct (int_bilin_MT_run f nrow ncol x y Hf Hlen Hext) as (fint & Hrun & Hl & Hv).
  exists fint. split; [assumption|]. split; [assumption|].
  assert (forall i j,
            (- Z.of_nat nrow <= i < Z.of_nat nrow)%Z ->
            (- Z.of_nat ncol <= j < Z.of_nat ncol)%Z -> item2 f i j = c) as Hitem.
  { intros i j Hi Hj.
    pose proof (getitem2_in_range f nrow ncol i j Hf Hi Hj) as Hget.
    unfold getitem2 in Hget. apply bind_Ok_inv in Hget as (row & Hrow & Hval).
    apply getitem_Ok_elem in Hrow. apply getitem_Ok_elem in Hval.
    rewrite Forall_forall in Hc. specialize (Hc row Hrow).
    rewrite Forall_forall in Hc. now apply Hc. }
  apply Forall_lookup. intros i v Hfi.
  assert (i < length x)%nat as Hi by (apply lookup_lt_Some in Hfi; lia).
  destruct (lookup_lt_is_Some_2 x i Hi) as [xi Hxi].
  destruct (lookup_lt_is_Some_2 y i ltac:(lia)) as [yi Hyi].
  rewrite (Hv i xi yi Hxi Hyi) in Hfi. injection Hfi as <-.
  destruct (Hext i xi yi Hxi Hyi) as [[Hx1 Hx2] [Hy1 Hy2]].
  unfold bilinear. cbv zeta. rewrite !Hitem by lia. ring.
Qed.

Lemma int_bilin_MT_constant_witness :
  exists fint,
    int_bilin_MT [[5; 5]; [5; 5]] [1 / 2; 3 / 4] [1 / 4; 1 / 2] = Ok fint /\
    Forall (fun v => v = 5) fint.
Proof.
  destruct (int_bilin_MT_constant [[5; 5]; [5; 5]] 2 2
              [1 / 2; 3 / 4] [1 / 4; 1 / 2] 5) as (fint & Hrun & _ & Hc).
  - split; [reflexivity|]. repeat constructor.
  - repeat constructor.
  - reflexivity.
  - exact in_extent_sample_points.
  - exists fint. split; [exact Hrun | exact Hc].
Defined.

(** ** [create_reference_image] *)

(** Sample [i] of [linspace(0, n-1, n)] is [i]. *)
Lemma linspace_index (n : Z) :
  (0 <= n)%Z ->
  exists l,
    linspace 0 (IZR (n - 1)) n = Ok l /\
    length l = Z.to_nat n /\
    forall i, (0 <= i < n)%Z -> l !! Z.to_nat i = Some (IZR i).
Proof.
  intros Hn.
  destruct (linspace_Ok 0 (IZR (n - 1)) n Hn) as (l & Hl & Hlen & Hv).
  exists l. split; [assumption|]. split; [assumption|].
  intros i Hi. rewrite (Hv i Hi). f_equal.
  case_bool_decide as Hlast.
  - destruct Hlast as [_ ->]. reflexivity.
  - destruct (Z.eq_dec n 1%Z) as [->|Hn1].
    + replace i with 0%Z by lia. cbn. lra.
    + assert (IZR (n - 1) <> 0) by (apply not_0_IZR; lia). field. assumption.
Qed.

(** With the default orientation ([correct_axes], no [sizey]) the image is
    a [size x size] Gaussian: pixel [(r, c)] sits at
    [(xx, yy) = (-(c - size/2), -(r - size/2))] and holds
    [exp(-(xx - x0)^2/sigma_x - (yy - y0)^2/sigma_y)]. *)
Theorem create_reference_image_default (size : Z) (x0 y0 sigma_x sigma_y : R) :
  (1 <= size)%Z -> sigma_x <> 0 -> sigma_y <> 0 ->
  exists image,
    create_reference_image size x0 y0 sigma_x sigma_y false true None = Ok image /\
    shape2 image (Z.to_nat size) (Z.to_nat size) /\
    forall r c, (r < Z.to_nat size)%nat -> (c < Z.to_nat size)%nat ->
      pixel image r c =
        Some (exp (- (- (IZR (Z.of_nat c) - IZR size / 2) - x0) ^ 2 / sigma_x
                   - (- (IZR (Z.of_nat r) - IZR size / 2) - y0) ^ 2 / sigma_y)).
Proof.
  intros Hsize Hsx Hsy. unfold create_reference_image. cbv zeta.
  destruct (linspace_index size ltac:(lia)) as (lx & Hlx & Hlen & Hv).
  rewrite Hlx, !bind_Ok. unfold meshgrid.
  eexists. split; [reflexivity|]. split.
  - replace (Z.to_nat size) with
      (length (Ropp <$> ((fun t : R => (t - IZR size / 2) * 1) <$> lx))) at 2
      by (rewrite !length_fmap; assumption).
    replace (Z.to_nat size) with
      (length ((fun t : R => - t / cos (0 / 180 * PI))
                 <$> ((fun t : R => (t - IZR size / 2) * 1) <$> lx)))
      by (rewrite !length_fmap; assumption).
    apply mesh_shape.
  - intros r c Hr Hc. rewrite mesh_pixel.
    pose proof (Hv (Z.of_nat r) ltac:(lia)) as Hvr. rewrite Nat2Z.id in Hvr.
    pose proof (Hv (Z.of_nat c) ltac:(lia)) as Hvc. rewrite Nat2Z.id in Hvc.
    rewrite !list_lookup_fmap, Hvr, Hvc.
    cbv [fmap option_fmap option_map mbind option_bind].
    rewrite cos_zero_inclination_1. do 2 f_equal. field. split; assumption.
Qed.

Lemma create_reference_image_default_witness :
  exists image,
    create_reference_image 2 10 (-3) 50 30 false true None = Ok image /\
    pixel image 0 1 =
      Some (exp (- (- (IZR (Z.of_nat 1) - 2 / 2) - 10) ^ 2 / 50
                 - (- (IZR (Z.of_nat 0) - 2 / 2) - -3) ^ 2 / 30)).
Proof.
  destruct (create_reference_image_default 2 10 (-3) 50 30)
    as (image & Hrun & _ & Hpix); [lia | lra | lra |].
  exists image. split; [exact Hrun|].
  apply (Hpix 0%nat 1%nat); cbn; lia.
Defined.



